(** * sic-watcher: a kqueue directory watcher

    A shallow embedding of [src/sic-watcher.c] and the properties of its
    three parts: the bounded seen-set of inode numbers, the directory scan
    that reports regular files not yet in the seen-set, and [main] with its
    argument parsing, start-up and event loop. *)

From Stdlib Require Import ZArith NArith String Ascii DecimalString Lia.
From stdpp Require Import base list.

Open Scope Z_scope.

(** ** The seen-set ([seen_inodes], [seen_count], [is_seen], [mark_seen]) *)

(** [ino_t] is an unsigned integer; the program only compares inode numbers
    for equality. *)
Definition ino_t := N.

(** [#define MAX_SEEN 4096] *)
Definition MAX_SEEN : Z := 4096.

(** The two file-scope objects [seen_inodes[MAX_SEEN]] and [seen_count].
    [seen_count] is a C [int]; it is only ever incremented while below
    [MAX_SEEN], so it is kept as an unbounded integer. *)
Record seen_set := SeenSet {
  seen_inodes : list ino_t;
  seen_count : Z
}.

(** Static storage is zero-initialised. *)
Definition seen_init : seen_set :=
  {| seen_inodes := replicate (Z.to_nat MAX_SEEN) 0%N; seen_count := 0 |}.

(** The loop [for (i = 0; i < seen_count; i++) if (seen_inodes[i] == inode)
    return 1;] walks the cells of the array from index 0, [n] being the
    number of iterations left. *)
Fixpoint is_seen_loop (cells : list ino_t) (n : nat) (inode : ino_t) : bool :=
  match n, cells with
  | S n', c :: rest => if (c =? inode)%N then true else is_seen_loop rest n' inode
  | _, _ => false
  end.

Definition is_seen (s : seen_set) (inode : ino_t) : bool :=
  is_seen_loop (seen_inodes s) (Z.to_nat (seen_count s)) inode.

(** [memmove(a + dst, a + src, n * sizeof *a)] on an array held as a list:
    the [n] cells from index [src] are copied over the [n] cells from index
    [dst]; the other cells keep their value. *)
Definition memmove (a : list ino_t) (dst src n : nat) : list ino_t :=
  take dst a ++ take n (drop src a) ++ drop (dst + n) a.

Definition mark_seen (s : seen_set) (inode : ino_t) : seen_set :=
  if seen_count s <? MAX_SEEN then
    {| seen_inodes := <[Z.to_nat (seen_count s) := inode]> (seen_inodes s);
       seen_count := seen_count s + 1 |}
  else
    {| seen_inodes :=
         <[Z.to_nat (MAX_SEEN - 1) := inode]>
           (memmove (seen_inodes s) 0 1 (Z.to_nat (MAX_SEEN - 1)));
       seen_count := seen_count s |}.

(** The entries the set currently holds, oldest first: the first
    [seen_count] cells of the array. *)
Definition tracked (s : seen_set) : list ino_t :=
  take (Z.to_nat (seen_count s)) (seen_inodes s).

(** The array keeps its declared size and the count stays within it. *)
Definition seen_wf (s : seen_set) : Prop :=
  length (seen_inodes s) = Z.to_nat MAX_SEEN /\ 0 <= seen_count s <= MAX_SEEN.

(** The two operations of the set, for stating properties of arbitrary
    call sequences. *)
Inductive seen_op :=
| OpContains (inode : ino_t)
| OpInsert (inode : ino_t).

Definition run_op (s : seen_set) (o : seen_op) : seen_set :=
  match o with
  | OpContains _ => s
  | OpInsert i => mark_seen s i
  end.

Definition run_ops (s : seen_set) (ops : list seen_op) : seen_set :=
  fold_left run_op ops s.

(** ** C strings *)

Definition NUL : ascii := "000"%char.
Definition LF : ascii := "010"%char.

(** The bytes of a C string: those before its terminating NUL.  Functions
    that read a [char *] ([strcmp], the [%s] conversion) see only these. *)
Fixpoint c_str (s : string) : string :=
  match s with
  | EmptyString => EmptyString
  | String c rest => if Ascii.eqb c NUL then EmptyString else String c (c_str rest)
  end.

(** [s[0] == c]; the first byte of an empty C string is its NUL. *)
Definition first_char_is (s : string) (c : ascii) : bool :=
  match s with
  | EmptyString => Ascii.eqb NUL c
  | String c0 _ => Ascii.eqb c0 c
  end.

(** [strcmp(a, b) == 0] *)
Definition strcmp_eq (a b : string) : bool := String.eqb (c_str a) (c_str b).

Fixpoint string_take (n : nat) (s : string) : string :=
  match n, s with
  | S n', String c rest => String c (string_take n' rest)
  | _, _ => EmptyString
  end.

(** [snprintf(buf, size, "%s/%s", a, b)]: the formatted text, cut to the
    [size - 1] bytes that fit before the terminating NUL. *)
Definition snprintf_path (size : nat) (a b : string) : string :=
  string_take (size - 1) (c_str a ++ String "/" (c_str b))%string.

(** ** Files as [stat] sees them *)

Definition mode_t := N.

(** File-type bits of [st_mode], from [<sys/stat.h>] (octal 0170000,
    0100000, 0040000, 0020000, 0060000, 0010000, 0140000, 0120000). *)
Definition S_IFMT : mode_t := 61440%N.
Definition S_IFREG : mode_t := 32768%N.
Definition S_IFDIR : mode_t := 16384%N.
Definition S_IFCHR : mode_t := 8192%N.
Definition S_IFBLK : mode_t := 24576%N.
Definition S_IFIFO : mode_t := 4096%N.
Definition S_IFSOCK : mode_t := 49152%N.
Definition S_IFLNK : mode_t := 40960%N.

Definition S_ISREG (m : mode_t) : bool := (N.land m S_IFMT =? S_IFREG)%N.

(** The two fields of [struct stat] the program reads. *)
Record struct_stat := { st_mode : mode_t; st_ino : ino_t }.

Inductive file_type :=
| Regular | Directory | CharDevice | BlockDevice | Fifo | Socket.

Definition type_bits (ft : file_type) : mode_t :=
  match ft with
  | Regular => S_IFREG
  | Directory => S_IFDIR
  | CharDevice => S_IFCHR
  | BlockDevice => S_IFBLK
  | Fifo => S_IFIFO
  | Socket => S_IFSOCK
  end.

(** What a name in the directory refers to: an object with its type,
    permission bits and inode number, a symbolic link with the object it
    points to, or a symbolic link whose target does not exist. *)
Inductive fsnode :=
| Object (ft : file_type) (perm : N) (ino : ino_t)
| Symlink (ino : ino_t) (target : fsnode)
| Dangling (ino : ino_t).

(** Following symbolic links down to the object they lead to. *)
Fixpoint resolve (n : fsnode) : option (file_type * N * ino_t) :=
  match n with
  | Object ft perm ino => Some (ft, perm, ino)
  | Symlink _ t => resolve t
  | Dangling _ => None
  end.

(** [stat(2)] resolves symbolic links and describes the object reached
    ([lstat(2)], which the program does not call, would describe the link);
    it fails on a dangling link. *)
Definition stat_node (n : fsnode) : option struct_stat :=
  match resolve n with
  | Some (ft, perm, ino) =>
      Some {| st_mode := N.lor (type_bits ft) (N.land perm 4095%N); st_ino := ino |}
  | None => None
  end.

Definition is_symlink (n : fsnode) : bool :=
  match n with
  | Object _ _ _ => false
  | Symlink _ _ | Dangling _ => true
  end.

(** One step of [readdir]: the name listed, and what the path built from
    it refers to when [stat] is called on it; [None] when the lookup finds
    nothing, as for an entry removed after it was listed. *)
Record entry := { d_name : string; e_node : option fsnode }.

(** [stat(fullpath, &st)]: [Some st] when it returns 0. *)
Definition stat (e : entry) : option struct_stat :=
  match e_node e with
  | None => None
  | Some n => stat_node n
  end.

(** ** What the process does to the outside *)

(** One record on standard output: the bytes written between two
    [fflush] calls, with the inode number of the file they report. *)
Record report := { r_ino : ino_t; r_bytes : string }.

(** The seen-set, standard output, standard error (one element per
    [fprintf] or [perror] call) and the descriptors passed to [close]. *)
Record proc := {
  p_seen : seen_set;
  p_out : list report;
  p_err : list string;
  p_closed : list Z
}.

Definition proc_init : proc :=
  {| p_seen := seen_init; p_out := []; p_err := []; p_closed := [] |}.

Definition set_seen (p : proc) (s : seen_set) : proc :=
  {| p_seen := s; p_out := p_out p; p_err := p_err p; p_closed := p_closed p |}.

Definition write_out (p : proc) (r : report) : proc :=
  {| p_seen := p_seen p; p_out := p_out p ++ [r]; p_err := p_err p;
     p_closed := p_closed p |}.

Definition write_err (p : proc) (line : string) : proc :=
  {| p_seen := p_seen p; p_out := p_out p; p_err := p_err p ++ [line];
     p_closed := p_closed p |}.

Definition close (p : proc) (fd : Z) : proc :=
  {| p_seen := p_seen p; p_out := p_out p; p_err := p_err p;
     p_closed := p_closed p ++ [fd] |}.

(** ** What the system answers *)

(** [EINTR] from [<errno.h>]. *)
Definition EINTR : Z := 4.

(** The results of the system calls of start-up: [open] on the directory,
    [kqueue], the registering [kevent], each with the [errno] it leaves on
    failure, and the listing the initial [opendir]/[readdir] yields
    ([None] when [opendir] fails). *)
Record startup := {
  open_ret : Z;
  open_errno : Z;
  kqueue_ret : Z;
  kqueue_errno : Z;
  register_ret : Z;
  register_errno : Z;
  seed_listing : option (list entry)
}.

(** One turn of the event loop: the value of [g_running] the loop test
    reads, the return value of the waiting [kevent] and its [errno], and
    the listing [opendir]/[readdir] yield should the scan run. *)
Record iteration := {
  it_running : Z;
  it_kevent : Z;
  it_errno : Z;
  it_listing : option (list entry)
}.

(** How a run over finitely many turns ends: the process has exited with a
    status, or it is still in the loop, blocked in [kevent]. *)
Inductive outcome :=
| Exited (status : Z)
| Waiting.

(** ** The program *)

Section Program.

(** [PATH_MAX] comes from [<limits.h>] and the text of [strerror] from the
    C library; the program is modelled for any values of them. *)
Variable PATH_MAX : nat.
Variable strerror : Z -> string.

Definition nl : string := String LF EmptyString.

(** The record separator written by [fputc] after the path. *)
Definition separator (null_term : bool) : ascii :=
  if null_term then NUL else LF.

(** [fputs(fullpath, stdout); fputc(sep, stdout); fflush(stdout);] *)
Definition emit (fullpath : string) (null_term : bool) : string :=
  (fullpath ++ String (separator null_term) EmptyString)%string.

(** The body of the [while ((entry = readdir(d)) != NULL)] loop of
    [scan_and_report], on the process state and the counter [found]
    (an [int] that grows by at most one per entry listed). *)
Definition scan_entry (dirpath : string) (null_term : bool)
    (acc : proc * Z) (e : entry) : proc * Z :=
  let '(p, found) := acc in
  if first_char_is (d_name e) "." then acc
  else
    let fullpath := snprintf_path PATH_MAX dirpath (d_name e) in
    match stat e with
    | None => acc
    | Some st =>
        if negb (S_ISREG (st_mode st)) then acc
        else if negb (is_seen (p_seen p) (st_ino st)) then
          let p1 := set_seen p (mark_seen (p_seen p) (st_ino st)) in
          let p2 := write_out p1 {| r_ino := st_ino st;
                                    r_bytes := emit fullpath null_term |} in
          (p2, found + 1)
        else acc
    end.

(** [scan_and_report(dirpath, null_term)]; [listing] is what [opendir] and
    the successive [readdir] calls yield, [None] when [opendir] returns
    NULL.  The result is the new process state and the value returned. *)
Definition scan_and_report (listing : option (list entry)) (dirpath : string)
    (null_term : bool) (p : proc) : proc * Z :=
  match listing with
  | None => (p, 0)
  | Some es => fold_left (scan_entry dirpath null_term) es (p, 0)
  end.

(** [usage(progname)]: two lines on standard error, then [exit(1)]. *)
Definition usage (progname : string) (p : proc) : proc :=
  let p1 := write_err p ("Usage: " ++ c_str progname ++ " [-0] <directory>" ++ nl)%string in
  write_err p1 ("  -0    Null-terminated output" ++ nl)%string.

(** [perror(s)] with the given value of [errno]. *)
Definition perror (s : string) (errno : Z) (p : proc) : proc :=
  write_err p (s ++ ": " ++ c_str (strerror errno) ++ nl)%string.

(** The argument loop of [main] over [argv[1..argc-1]], on the variables
    [null_term] and [dirpath] ([None] for the NULL pointer).  The result is
    [None] when [usage] is called, which does not return. *)
Fixpoint parse_args (args : list string) (null_term : bool)
    (dirpath : option string) : option (bool * option string) :=
  match args with
  | [] => Some (null_term, dirpath)
  | a :: rest =>
      if strcmp_eq a "-0" then parse_args rest true dirpath
      else if first_char_is a "-" then None
      else parse_args rest null_term (Some a)
  end.

(** The body of the loop of the initial scan in [main]. *)
Definition initial_scan_entry (dirpath : string) (s : seen_set) (e : entry)
    : seen_set :=
  if first_char_is (d_name e) "." then s
  else
    let fullpath := snprintf_path PATH_MAX dirpath (d_name e) in
    match stat e with
    | Some st => if S_ISREG (st_mode st) then mark_seen s (st_ino st) else s
    | None => s
    end.

(** The initial scan of [main], which fills the seen-set and writes
    nothing. *)
Definition initial_scan (listing : option (list entry)) (dirpath : string)
    (p : proc) : proc :=
  match listing with
  | None => p
  | Some es => set_seen p (fold_left (initial_scan_entry dirpath) es (p_seen p))
  end.

(** [main] up to the event loop: either the process has exited, or it
    reaches the loop with [null_term], [dirpath], [kq] and [dirfd] set. *)
Inductive init_result :=
| InitExit (p : proc) (status : Z)
| InitOk (p : proc) (null_term : bool) (dirpath : string) (kq dirfd : Z).

Definition initializing (progname : string) (args : list string)
    (su : startup) : init_result :=
  match parse_args args false None with
  | None => InitExit (usage progname proc_init) 1
  | Some (_, None) => InitExit (usage progname proc_init) 1
  | Some (null_term, Some dirpath) =>
      let dirfd := open_ret su in
      if dirfd <? 0 then
        InitExit
          (write_err proc_init
             ("sic-watcher: cannot open '" ++ c_str dirpath ++ "': "
              ++ c_str (strerror (open_errno su)) ++ nl)%string) 1
      else
        let kq := kqueue_ret su in
        if kq <? 0 then
          InitExit
            (close (perror "sic-watcher: kqueue" (kqueue_errno su) proc_init)
               dirfd) 1
        else if register_ret su <? 0 then
          InitExit
            (close
               (close
                  (perror "sic-watcher: kevent register" (register_errno su)
                     proc_init) kq) dirfd) 1
        else
          InitOk (initial_scan (seed_listing su) dirpath proc_init)
            null_term dirpath kq dirfd
  end.

(** The event loop over the turns given.  [true] in the result: the loop
    was left (by its test or by [break]); [false]: the turns are used up
    and the process is still waiting.  The pause of [usleep] before a scan
    changes nothing in the state. *)
Fixpoint event_loop (dirpath : string) (null_term : bool) (p : proc)
    (its : list iteration) : proc * bool :=
  match its with
  | [] => (p, false)
  | it :: rest =>
      if it_running it =? 0 then (p, true)
      else
        let n := it_kevent it in
        if n <? 0 then
          if it_errno it =? EINTR then event_loop dirpath null_term p rest
          else (perror "sic-watcher: kevent wait" (it_errno it) p, true)
        else if 0 <? n then
          event_loop dirpath null_term
            (fst (scan_and_report (it_listing it) dirpath null_term p)) rest
        else event_loop dirpath null_term p rest
  end.

(** [main(argc, argv)] with [argv[0] = progname] and [argv[1..] = args]. *)
Definition main (progname : string) (args : list string) (su : startup)
    (its : list iteration) : proc * outcome :=
  match initializing progname args su with
  | InitExit p status => (p, Exited status)
  | InitOk p null_term dirpath kq dirfd =>
      match event_loop dirpath null_term p its with
      | (p', true) => (close (close p' kq) dirfd, Exited 0)
      | (p', false) => (p', Waiting)
      end
  end.

End Program.

(** ** Vocabulary for the statements *)

(** The inode number a scan looks an entry up by: none for a name that
    starts with a dot, for a failed [stat] and for anything but a regular
    file. *)
Definition candidate (e : entry) : option ino_t :=
  if first_char_is (d_name e) "." then None
  else
    match stat e with
    | Some st => if S_ISREG (st_mode st) then Some (st_ino st) else None
    | None => None
    end.

(** A record is written for an entry with a visible name that [stat]
    describes as a regular file; it carries that file's inode number and
    the path built for the entry, followed by the separator. *)
Definition written_for (PATH_MAX : nat) (d : string) (nt : bool) (r : report)
    (e : entry) : Prop :=
  candidate e = Some (r_ino r)
  /\ r_bytes r = emit (snprintf_path PATH_MAX d (d_name e)) nt.

(** Arguments as the loop of [main] classifies them. *)
Definition is_null_flag (a : string) : bool := strcmp_eq a "-0".
Definition unknown_flag (a : string) : bool :=
  negb (strcmp_eq a "-0") && first_char_is a "-".
Definition positional (a : string) : bool :=
  negb (strcmp_eq a "-0") && negb (first_char_is a "-").

(** How a stretch of the run that writes the records [new] relates the
    process states before and after it: standard output has grown by
    [new], the seen-set stays well formed, and as long as the entries held
    before plus the records written fit in [MAX_SEEN], the seen-set has
    grown by exactly the inode numbers written, which are pairwise distinct
    and were not held before. *)
Definition reports (p p' : proc) (new : list report) : Prop :=
  seen_wf (p_seen p)
  /\ seen_wf (p_seen p')
  /\ p_out p' = p_out p ++ new
  /\ (seen_count (p_seen p) + Z.of_nat (length new) <= MAX_SEEN ->
        tracked (p_seen p') = tracked (p_seen p) ++ (r_ino <$> new)
        /\ NoDup (r_ino <$> new)
        /\ forall i, i ∈ (r_ino <$> new) -> i ∉ tracked (p_seen p)).

Definition bytes (s : string) : list ascii := list_ascii_of_string s.

(** ** Concrete directories and runs *)

Definition regular_file (name : string) (ino : ino_t) : entry :=
  {| d_name := name; e_node := Some (Object Regular 420%N ino) |}.

(** The file named [f<n>] with inode number [n]. *)
Definition numbered_file (n : nat) : entry :=
  regular_file ("f" ++ NilEmpty.string_of_uint (Nat.to_uint n)) (N.of_nat n).

Definition numbered_files (first count : nat) : list entry :=
  map numbered_file (seq first count).

(** A start-up in which every system call succeeds. *)
Definition startup_ok (listing : option (list entry)) : startup :=
  {| open_ret := 3; open_errno := 0; kqueue_ret := 4; kqueue_errno := 0;
     register_ret := 0; register_errno := 0; seed_listing := listing |}.

(** A turn in which [kevent] reports a change and the scan sees
    [listing]. *)
Definition changed (listing : option (list entry)) : iteration :=
  {| it_running := 1; it_kevent := 1; it_errno := 0; it_listing := listing |}.

(** A turn in which [kevent] fails with [errno]. *)
Definition wait_fails (errno : Z) : iteration :=
  {| it_running := 1; it_kevent := -1; it_errno := errno; it_listing := None |}.

(** A turn whose loop test reads [g_running == 0]. *)
Definition stopped : iteration :=
  {| it_running := 0; it_kevent := 0; it_errno := 0; it_listing := None |}.

(** The seen-set after [MAX_SEEN] insertions of the inode numbers
    1 .. 4096. *)
Definition full_set : seen_set :=
  fold_left mark_seen (map N.of_nat (seq 1 (Z.to_nat MAX_SEEN))) seen_init.

(** Some text for [strerror]. *)
Definition strerror_text (errno : Z) : string :=
  if errno =? 2 then "No such file or directory"
  else if errno =? 9 then "Bad file descriptor"
  else "Unknown error".


(** Two names for one file (hard links). *)
Definition hard_links : list entry :=
  [regular_file "a.png" 5%N; regular_file "b.png" 5%N].

(** A symbolic link (inode 11) to a regular file (inode 12). *)
Definition link_to_file : entry :=
  {| d_name := "shot.png"; e_node := Some (Symlink 11%N (Object Regular 420%N 12%N)) |}.

Definition subdirectory : entry :=
  {| d_name := "sub"; e_node := Some (Object Directory 493%N 20%N) |}.

Definition vanished : entry := {| d_name := "tmp123"; e_node := None |}.

(** ** Vocabulary for further properties *)

(** The last [MAX_SEEN] elements of a list. *)
Definition window (l : list ino_t) : list ino_t :=
  drop (length l - Z.to_nat MAX_SEEN) l.

(** The inode numbers a scan of a listing looks up, in listing order. *)
Definition candidates (es : list entry) : list ino_t := omap candidate es.

(** A turn that is neither the end of the loop nor a scan nor a failure:
    [g_running] is set and [kevent] timed out (returned 0) or was
    interrupted ([EINTR]). *)
Definition idle_turn (it : iteration) : bool :=
  negb (it_running it =? 0)
  && (((it_kevent it <? 0) && (it_errno it =? EINTR)) || (it_kevent it =? 0)).

(** The descriptors a run has obtained by the time it reaches the code
    after them, in the order [main] closes them: none when the arguments
    are refused or [open] fails, [dirfd] when [kqueue] fails, [kq] and
    [dirfd] otherwise. *)
Definition opened (args : list string) (su : startup) : list Z :=
  match parse_args args false None with
  | Some (_, Some _) =>
      if open_ret su <? 0 then []
      else if kqueue_ret su <? 0 then [open_ret su]
      else [kqueue_ret su; open_ret su]
  | _ => []
  end.

(** A directory with two regular files and a hidden one. *)
Definition two_files : list entry :=
  [regular_file "a.png" 1%N; regular_file ".tmp" 3%N; regular_file "b.png" 2%N].

(** * Properties *)

(** ** The seen-set *)

Section SeenSetFacts.

Implicit Types (s : seen_set) (i j : ino_t) (a : list ino_t).

Lemma MAX_SEEN_pos : 0 < MAX_SEEN.
Proof. reflexivity. Qed.

Lemma is_seen_loop_spec a n i :
  is_seen_loop a n i = true <-> i ∈ take n a.
Proof.
  revert a; induction n as [|n IH]; intros [|c rest]; simpl;
    try (split; [discriminate | intros H; inversion H]).
  destruct (N.eqb_spec c i) as [->|Hne].
  - split; [intros _; left | reflexivity].
  - rewrite IH. split; [intros H; now right | intros H].
    inversion H; subst; [congruence | assumption].
Qed.

(** [is_seen] is membership in the tracked entries. *)
Lemma is_seen_tracked s i : is_seen s i = true <-> i ∈ tracked s.
Proof. apply is_seen_loop_spec. Qed.

Lemma is_seen_false_tracked s i : is_seen s i = false <-> i ∉ tracked s.
Proof.
  rewrite <- is_seen_tracked. destruct (is_seen s i); split; congruence.
Qed.

Lemma seen_init_wf : seen_wf seen_init.
Proof.
  split; cbn [seen_init seen_inodes seen_count].
  - apply length_replicate.
  - pose proof MAX_SEEN_pos; lia.
Qed.

Lemma tracked_init : tracked seen_init = [].
Proof. reflexivity. Qed.

Lemma length_tracked s : seen_wf s -> Z.of_nat (length (tracked s)) = seen_count s.
Proof.
  intros [Hlen Hc]. unfold tracked. rewrite length_take. lia.
Qed.

Lemma memmove_shift a n :
  length a = S n -> memmove a 0 1 n = drop 1 a ++ drop n a.
Proof.
  intros Hlen. unfold memmove.
  change (take 0 a) with (@nil ino_t). change (0 + n)%nat with n.
  rewrite app_nil_l. f_equal.
  apply take_ge. rewrite length_drop. lia.
Qed.

Lemma mark_seen_wf s i : seen_wf s -> seen_wf (mark_seen s i).
Proof.
  intros [Hlen Hc]. unfold mark_seen.
  destruct (Z.ltb_spec (seen_count s) MAX_SEEN) as [Hlt|Hge]; split;
    cbn [seen_inodes seen_count]; rewrite ?length_insert; try lia.
  pose proof MAX_SEEN_pos as Hpos.
  rewrite (memmove_shift _ (Z.to_nat (MAX_SEEN - 1))) by lia.
  rewrite length_app, !length_drop. lia.
Qed.

(** Below capacity [mark_seen] appends. *)
Lemma tracked_mark_seen_room s i :
  seen_wf s -> seen_count s < MAX_SEEN ->
  tracked (mark_seen s i) = tracked s ++ [i]
  /\ seen_count (mark_seen s i) = seen_count s + 1.
Proof.
  intros [Hlen Hc] Hlt. unfold mark_seen, tracked.
  destruct (Z.ltb_spec (seen_count s) MAX_SEEN) as [_|Hge]; [cbn [seen_inodes seen_count] | lia].
  split; [|reflexivity].
  replace (Z.to_nat (seen_count s + 1)) with (S (Z.to_nat (seen_count s))) by lia.
  rewrite (take_S_r _ _ i).
  - rewrite take_insert_ge by lia. reflexivity.
  - apply list_lookup_insert_eq. lia.
Qed.

(** At capacity [mark_seen] drops the oldest entry and appends. *)
Lemma tracked_mark_seen_full s i :
  seen_wf s -> seen_count s = MAX_SEEN ->
  tracked (mark_seen s i) = drop 1 (tracked s) ++ [i]
  /\ seen_count (mark_seen s i) = MAX_SEEN.
Proof.
  intros [Hlen Hc] Heq. pose proof MAX_SEEN_pos as Hpos.
  unfold mark_seen, tracked.
  destruct (Z.ltb_spec (seen_count s) MAX_SEEN) as [Hlt|_]; [lia | cbn [seen_inodes seen_count]].
  split; [|assumption].
  rewrite Heq.
  rewrite (memmove_shift _ (Z.to_nat (MAX_SEEN - 1))) by lia.
  rewrite (take_ge (seen_inodes s)) by lia.
  assert (Hd : length (drop 1 (seen_inodes s)) = Z.to_nat (MAX_SEEN - 1))
    by (rewrite length_drop; lia).
  rewrite insert_app_r_alt by lia.
  rewrite Hd, Nat.sub_diag.
  assert (Hlast : length (drop (Z.to_nat (MAX_SEEN - 1)) (seen_inodes s)) = 1%nat)
    by (rewrite length_drop, Hlen; lia).
  destruct (drop (Z.to_nat (MAX_SEEN - 1)) (seen_inodes s)) as [|x [|y l]];
    simpl in Hlast; try lia.
  change (<[0%nat:=i]> [x]) with [i].
  apply take_ge. rewrite length_app, Hd. cbn [length]. lia.
Qed.

Lemma seen_count_mark_seen_le s i : seen_count s <= seen_count (mark_seen s i).
Proof.
  unfold mark_seen. destruct (seen_count s <? MAX_SEEN); cbn [seen_count]; lia.
Qed.

(** A fresh inode number keeps the tracked entries pairwise distinct, at
    capacity too. *)
Lemma mark_seen_distinct s i :
  seen_wf s -> NoDup (tracked s) -> i ∉ tracked s ->
  NoDup (tracked (mark_seen s i)).
Proof.
  intros Hwf Hnd Hfresh.
  destruct (Z.eq_dec (seen_count s) MAX_SEEN) as [Heq|Hne].
  - destruct (tracked_mark_seen_full s i Hwf Heq) as [-> _].
    apply NoDup_app. split; [|split; [|apply NoDup_singleton]].
    + exact (sublist_NoDup _ _ Hnd (sublist_drop _ _)).
    + intros j Hj Hji. apply list_elem_of_singleton in Hji as ->.
      apply Hfresh. exact (subseteq_drop _ _ _ Hj).
  - destruct (tracked_mark_seen_room s i Hwf) as [-> _];
      [destruct Hwf as [_ Hc]; lia|].
    apply NoDup_app. split; [exact Hnd|]. split; [|apply NoDup_singleton].
    intros j Hj Hji. apply list_elem_of_singleton in Hji as ->. contradiction.
Qed.

Lemma run_ops_wf ops s : seen_wf s -> seen_wf (run_ops s ops).
Proof.
  revert s; induction ops as [|o ops IH]; intros s Hwf; [exact Hwf|].
  apply IH. destruct o; simpl; [exact Hwf | now apply mark_seen_wf].
Qed.

End SeenSetFacts.

(** ** Capacity and eviction *)

(** C5: whatever sequence of membership tests and insertions is run on the
    initially empty seen-set, after every operation of it the entry count
    lies between 0 and [MAX_SEEN] = 4096, the tracked entries number
    exactly that count, and the array keeps its [MAX_SEEN] cells. *)
Theorem seen_count_bounded (ops : list seen_op) (n : nat) :
  let s := run_ops seen_init (take n ops) in
  MAX_SEEN = 4096
  /\ 0 <= seen_count s <= MAX_SEEN
  /\ Z.of_nat (length (tracked s)) = seen_count s
  /\ length (seen_inodes s) = Z.to_nat MAX_SEEN.
Proof.
  intros s.
  assert (Hwf : seen_wf s) by (apply run_ops_wf, seen_init_wf).
  split; [reflexivity|].
  split; [apply Hwf|].
  split; [now apply length_tracked | apply Hwf].
Qed.

(** C6: [mark_seen] adds the inode number as the newest entry.  Below
    capacity the older entries all stay, in order, and the count grows by
    one; at capacity exactly the oldest entry is dropped, the other
    [MAX_SEEN - 1] entries stay in their order before the new one, and the
    count stays [MAX_SEEN]. *)
Theorem mark_seen_fifo (s : seen_set) (id : ino_t) :
  seen_wf s ->
  is_seen (mark_seen s id) id = true
  /\ (seen_count s < MAX_SEEN ->
        tracked (mark_seen s id) = tracked s ++ [id]
        /\ seen_count (mark_seen s id) = seen_count s + 1)
  /\ (seen_count s = MAX_SEEN ->
        exists oldest rest,
          tracked s = oldest :: rest
          /\ length rest = Z.to_nat (MAX_SEEN - 1)
          /\ tracked (mark_seen s id) = rest ++ [id]
          /\ seen_count (mark_seen s id) = MAX_SEEN).
Proof.
  intros Hwf.
  assert (Hroom := tracked_mark_seen_room s id Hwf).
  assert (Hfull := tracked_mark_seen_full s id Hwf).
  split; [|split].
  - apply is_seen_tracked.
    destruct Hwf as [_ Hc].
    destruct (Z.eq_dec (seen_count s) MAX_SEEN) as [Heq|Hne].
    + destruct (Hfull Heq) as [-> _]. apply elem_of_app; right. now left.
    + destruct Hroom as [-> _]; [lia|]. apply elem_of_app; right. now left.
  - exact Hroom.
  - intros Heq. destruct (Hfull Heq) as [Ht Hc].
    pose proof (length_tracked s Hwf) as Hlen.
    pose proof MAX_SEEN_pos as Hpos.
    destruct (tracked s) as [|oldest rest] eqn:Etr.
    + simpl in Hlen. lia.
    + exists oldest, rest. split; [reflexivity|].
      split; [simpl in Hlen; lia|]. split; assumption.
Qed.

Lemma mark_seen_fifo_witness :
  seen_wf full_set
  /\ is_seen (mark_seen full_set 5000%N) 5000%N = true
  /\ (seen_count full_set < MAX_SEEN ->
        tracked (mark_seen full_set 5000%N) = tracked full_set ++ [5000%N]
        /\ seen_count (mark_seen full_set 5000%N) = seen_count full_set + 1)
  /\ (seen_count full_set = MAX_SEEN ->
        exists oldest rest,
          tracked full_set = oldest :: rest
          /\ length rest = Z.to_nat (MAX_SEEN - 1)
          /\ tracked (mark_seen full_set 5000%N) = rest ++ [5000%N]
          /\ seen_count (mark_seen full_set 5000%N) = MAX_SEEN).
Proof.
  assert (Hwf : seen_wf full_set).
  { split; [vm_compute; reflexivity | split; vm_compute; discriminate]. }
  split; [exact Hwf | apply (mark_seen_fifo full_set 5000%N Hwf)].
Defined.

(** ** File types *)

Lemma S_ISREG_type_bits (ft : file_type) (perm : N) :
  S_ISREG (N.lor (type_bits ft) (N.land perm 4095)) = true <-> ft = Regular.
Proof.
  unfold S_ISREG. rewrite N.land_lor_distr_l, <- N.land_assoc.
  change (N.land 4095 S_IFMT) with 0%N. rewrite N.land_0_r, N.lor_0_r.
  destruct ft; vm_compute; split; congruence.
Qed.

Lemma stat_resolve (e : entry) (st : struct_stat) :
  stat e = Some st ->
  exists n ft perm, e_node e = Some n /\ resolve n = Some (ft, perm, st_ino st)
    /\ (S_ISREG (st_mode st) = true <-> ft = Regular).
Proof.
  unfold stat, stat_node. destruct (e_node e) as [n|]; [|discriminate].
  destruct (resolve n) as [[[ft perm] ino]|] eqn:Hres; [|discriminate].
  intros [= <-]. exists n, ft, perm. split; [reflexivity|].
  split; [exact Hres | apply S_ISREG_type_bits].
Qed.

Lemma candidate_Some (e : entry) (i : ino_t) :
  candidate e = Some i <->
  first_char_is (d_name e) "." = false
  /\ exists st, stat e = Some st /\ S_ISREG (st_mode st) = true /\ st_ino st = i.
Proof.
  unfold candidate. destruct (first_char_is (d_name e) ".").
  - split; [discriminate | intros [? _]; discriminate].
  - destruct (stat e) as [st|].
    + destruct (S_ISREG (st_mode st)) eqn:Hreg.
      * split.
        -- intros [= <-]. split; [reflexivity | now exists st].
        -- intros [_ (st' & [= <-] & _ & <-)]. reflexivity.
      * split; [discriminate|].
        intros [_ (st' & [= <-] & Hreg' & _)]. congruence.
    + split; [discriminate | intros [_ (st' & Hst & _)]; discriminate].
Qed.

(** ** One entry of a scan *)

Section ScanFacts.

Variable PATH_MAX : nat.
Implicit Types (p : proc) (e : entry) (es : list entry) (d : string)
  (nt : bool) (found : Z).

Lemma scan_entry_candidate d nt p found e :
  scan_entry PATH_MAX d nt (p, found) e =
  match candidate e with
  | None => (p, found)
  | Some i =>
      if is_seen (p_seen p) i then (p, found)
      else (write_out (set_seen p (mark_seen (p_seen p) i))
              {| r_ino := i;
                 r_bytes := emit (snprintf_path PATH_MAX d (d_name e)) nt |},
            found + 1)
  end.
Proof.
  unfold scan_entry, candidate.
  destruct (first_char_is (d_name e) "."); [reflexivity|].
  destruct (stat e) as [st|]; [|reflexivity].
  destruct (S_ISREG (st_mode st)); [|reflexivity]. simpl.
  destruct (is_seen (p_seen p) (st_ino st)); reflexivity.
Qed.

Lemma initial_scan_entry_candidate d (s : seen_set) e :
  initial_scan_entry PATH_MAX d s e =
  match candidate e with
  | None => s
  | Some i => mark_seen s i
  end.
Proof.
  unfold initial_scan_entry, candidate.
  destruct (first_char_is (d_name e) "."); [reflexivity|].
  destruct (stat e) as [st|]; [|reflexivity].
  destruct (S_ISREG (st_mode st)); reflexivity.
Qed.

Lemma initial_scan_entries_wf d es (s : seen_set) :
  seen_wf s -> seen_wf (fold_left (initial_scan_entry PATH_MAX d) es s).
Proof.
  revert s; induction es as [|e es IH]; intros s Hwf; [exact Hwf|].
  simpl. apply IH. rewrite initial_scan_entry_candidate.
  destruct (candidate e); [now apply mark_seen_wf | exact Hwf].
Qed.

End ScanFacts.

(** ** Runs of reports *)

Section ReportsFacts.

Implicit Types (p q : proc) (new : list report).

Lemma reports_refl p : seen_wf (p_seen p) -> reports p p [].
Proof.
  intros Hwf. split; [assumption|]. split; [assumption|].
  split; [symmetry; apply app_nil_r|]. intros _.
  split; [symmetry; apply app_nil_r|].
  split; [constructor | intros i Hi; inversion Hi].
Qed.

Lemma reports_mark p i (b : string) :
  seen_wf (p_seen p) -> is_seen (p_seen p) i = false ->
  reports p (write_out (set_seen p (mark_seen (p_seen p) i))
               {| r_ino := i; r_bytes := b |})
    [{| r_ino := i; r_bytes := b |}].
Proof.
  intros Hwf Hnew. split; [assumption|].
  split; [now apply mark_seen_wf|]. split; [reflexivity|].
  cbn [p_seen write_out set_seen length fmap list_fmap r_ino]. intros Hfit.
  destruct (tracked_mark_seen_room (p_seen p) i Hwf) as [Htr _]; [lia|].
  split; [exact Htr|]. split; [apply NoDup_singleton|].
  intros j Hj. apply list_elem_of_singleton in Hj as ->.
  now apply is_seen_false_tracked.
Qed.

Lemma reports_trans p p' p'' new1 new2 :
  reports p p' new1 -> reports p' p'' new2 -> reports p p'' (new1 ++ new2).
Proof.
  intros (Hwf & Hwf' & Hout1 & Hfit1) (_ & Hwf'' & Hout2 & Hfit2).
  split; [assumption|]. split; [assumption|].
  split; [rewrite Hout2, Hout1; symmetry; apply app_assoc|].
  rewrite length_app, Nat2Z.inj_add. intros Hfit.
  destruct Hfit1 as (Htr1 & Hnd1 & Hfresh1); [lia|].
  assert (Hcount : seen_count (p_seen p')
                   = seen_count (p_seen p) + Z.of_nat (length new1)).
  { rewrite <- (length_tracked _ Hwf'), <- (length_tracked _ Hwf), Htr1.
    rewrite length_app, length_fmap. lia. }
  destruct Hfit2 as (Htr2 & Hnd2 & Hfresh2); [lia|].
  rewrite fmap_app. split; [rewrite Htr2, Htr1; symmetry; apply app_assoc|].
  split.
  - apply NoDup_app. split; [assumption|]. split; [|assumption].
    intros i Hi1 Hi2. apply (Hfresh2 i Hi2). rewrite Htr1.
    apply elem_of_app; now right.
  - intros i Hi Hold. apply elem_of_app in Hi as [Hi|Hi].
    + exact (Hfresh1 i Hi Hold).
    + apply (Hfresh2 i Hi). rewrite Htr1. apply elem_of_app; now left.
Qed.

Lemma reports_same p p' q new :
  p_seen q = p_seen p' -> p_out q = p_out p' ->
  reports p p' new -> reports p q new.
Proof. unfold reports. intros -> ->. exact id. Qed.

End ReportsFacts.

(** ** Whole scans and the event loop *)

Section LoopFacts.

Variable PATH_MAX : nat.
Variable strerror : Z -> string.
Implicit Types (p : proc) (e : entry) (es : list entry) (d : string)
  (nt : bool) (found : Z) (its : list iteration).

Lemma scan_entries_reports d nt es p found :
  seen_wf (p_seen p) ->
  exists new,
    reports p (fst (fold_left (scan_entry PATH_MAX d nt) es (p, found))) new
    /\ snd (fold_left (scan_entry PATH_MAX d nt) es (p, found))
       = found + Z.of_nat (length new).
Proof.
  revert p found; induction es as [|e es IH]; intros p found Hwf.
  - exists []. split; [now apply reports_refl | simpl; lia].
  - cbn [fold_left]. rewrite scan_entry_candidate.
    destruct (candidate e) as [i|]; [|now apply IH].
    destruct (is_seen (p_seen p) i) eqn:Hseen; [now apply IH|].
    pose proof (reports_mark p i
                  (emit (snprintf_path PATH_MAX d (d_name e)) nt) Hwf Hseen)
      as Hstep.
    destruct (IH _ (found + 1) (proj1 (proj2 Hstep))) as (new & Hrest & Hfound).
    eexists (_ :: new). split.
    + exact (reports_trans _ _ _ _ _ Hstep Hrest).
    + rewrite Hfound. cbn [length]. lia.
Qed.

Lemma scan_and_report_reports listing d nt p :
  seen_wf (p_seen p) ->
  exists new,
    reports p (fst (scan_and_report PATH_MAX listing d nt p)) new
    /\ snd (scan_and_report PATH_MAX listing d nt p) = Z.of_nat (length new).
Proof.
  intros Hwf. destruct listing as [es|]; simpl.
  - destruct (scan_entries_reports d nt es p 0 Hwf) as (new & H1 & H2).
    exists new. split; [exact H1 | rewrite H2; lia].
  - exists []. split; [now apply reports_refl | reflexivity].
Qed.

(** A reporting scan inserts only inode numbers the seen-set does not
    hold, so it keeps distinct entries distinct. *)
Lemma scan_and_report_distinct listing d nt p :
  seen_wf (p_seen p) -> NoDup (tracked (p_seen p)) ->
  NoDup (tracked (p_seen (fst (scan_and_report PATH_MAX listing d nt p)))).
Proof.
  destruct listing as [es|]; cbn [scan_and_report]; [|now intros].
  generalize 0 as found. revert p.
  induction es as [|e es IH]; intros p found Hwf Hnd; [exact Hnd|].
  cbn [fold_left]. rewrite scan_entry_candidate.
  destruct (candidate e) as [i|]; [|now apply IH].
  destruct (is_seen (p_seen p) i) eqn:Hseen; [now apply IH|].
  apply IH; cbn [p_seen write_out set_seen].
  - now apply mark_seen_wf.
  - apply mark_seen_distinct; [assumption..|].
    now apply is_seen_false_tracked.
Qed.

Lemma event_loop_reports d nt its p :
  seen_wf (p_seen p) ->
  exists new, reports p (fst (event_loop PATH_MAX strerror d nt p its)) new.
Proof.
  revert p; induction its as [|it its IH]; intros p Hwf; cbn [event_loop].
  - exists []. now apply reports_refl.
  - destruct (it_running it =? 0); [exists []; now apply reports_refl|].
    destruct (it_kevent it <? 0).
    + destruct (it_errno it =? EINTR); [now apply IH|].
      exists []. apply (reports_same p p); try reflexivity.
      now apply reports_refl.
    + destruct (0 <? it_kevent it); [|now apply IH].
      destruct (scan_and_report_reports (it_listing it) d nt p Hwf)
        as (new1 & H1 & _).
      destruct (IH _ (proj1 (proj2 H1))) as (new2 & H2).
      exists (new1 ++ new2). exact (reports_trans _ _ _ _ _ H1 H2).
Qed.

Lemma initial_scan_seen listing d p :
  seen_wf (p_seen p) ->
  seen_wf (p_seen (initial_scan PATH_MAX listing d p))
  /\ p_out (initial_scan PATH_MAX listing d p) = p_out p
  /\ p_err (initial_scan PATH_MAX listing d p) = p_err p
  /\ p_closed (initial_scan PATH_MAX listing d p) = p_closed p.
Proof.
  intros Hwf. destruct listing as [es|]; cbn [initial_scan];
    (split; [|now repeat split]); [|exact Hwf].
  now apply initial_scan_entries_wf.
Qed.

Lemma initializing_ok progname args su p0 nt d kq dirfd :
  initializing PATH_MAX strerror progname args su = InitOk p0 nt d kq dirfd ->
  p0 = initial_scan PATH_MAX (seed_listing su) d proc_init
  /\ kq = kqueue_ret su /\ dirfd = open_ret su
  /\ parse_args args false None = Some (nt, Some d)
  /\ 0 <= dirfd /\ 0 <= kq /\ 0 <= register_ret su.
Proof.
  unfold initializing.
  destruct (parse_args args false None) as [[nt' [d'|]]|]; try discriminate.
  destruct (Z.ltb_spec (open_ret su) 0); [discriminate|].
  destruct (Z.ltb_spec (kqueue_ret su) 0); [discriminate|].
  destruct (Z.ltb_spec (register_ret su) 0); [discriminate|].
  intros [= <- <- <- <- <-]. now repeat split.
Qed.

Lemma initializing_exit_silent progname args su p status :
  initializing PATH_MAX strerror progname args su = InitExit p status ->
  status = 1 /\ p_out p = [] /\ p_seen p = seen_init.
Proof.
  unfold initializing.
  destruct (parse_args args false None) as [[nt' [d'|]]|];
    [|intros [= <- <-]; now repeat split..].
  destruct (open_ret su <? 0); [intros [= <- <-]; now repeat split|].
  destruct (kqueue_ret su <? 0); [intros [= <- <-]; now repeat split|].
  destruct (register_ret su <? 0); [intros [= <- <-]; now repeat split|].
  discriminate.
Qed.

(** Whatever the run, the seen-set of the process keeps its array size
    and a count within [0, MAX_SEEN]. *)
Lemma main_seen_wf progname args su its :
  seen_wf (p_seen (fst (main PATH_MAX strerror progname args su its))).
Proof.
  unfold main.
  destruct (initializing PATH_MAX strerror progname args su)
    as [p status|p0 nt d kq dirfd] eqn:Hinit.
  - cbn [fst]. apply initializing_exit_silent in Hinit as (_ & _ & ->).
    exact seen_init_wf.
  - apply initializing_ok in Hinit as (-> & _).
    destruct (initial_scan_seen (seed_listing su) d proc_init seen_init_wf)
      as (Hwf & _).
    destruct (event_loop_reports d nt its _ Hwf) as (new & _ & Hwf' & _).
    now destruct (event_loop PATH_MAX strerror d nt _ its) as [p' []].
Qed.

End LoopFacts.

(** ** Strings *)

Section StringFacts.

Implicit Types (s a b : string) (c : ascii).

Lemma bytes_app a b : bytes (a ++ b) = bytes a ++ bytes b.
Proof. induction a as [|c a IH]; simpl; [reflexivity | now rewrite IH]. Qed.

Lemma c_str_no_NUL s : NUL ∉ bytes (c_str s).
Proof.
  induction s as [|c s IH]; simpl; [apply not_elem_of_nil|].
  destruct (Ascii.eqb_spec c NUL) as [->|Hne]; simpl; [apply not_elem_of_nil|].
  intros H. apply elem_of_cons in H as [H|H]; [congruence | contradiction].
Qed.

Lemma string_take_no_NUL n s : NUL ∉ bytes s -> NUL ∉ bytes (string_take n s).
Proof.
  revert s; induction n as [|n IH]; intros [|c s]; simpl;
    try (intros _; apply not_elem_of_nil).
  intros H Hin. apply elem_of_cons in Hin as [Hin|Hin].
  - apply H. rewrite Hin. now left.
  - apply (IH s); [|exact Hin]. intros H'. apply H. now right.
Qed.

Lemma snprintf_path_no_NUL n a b : NUL ∉ bytes (snprintf_path n a b).
Proof.
  unfold snprintf_path. apply string_take_no_NUL.
  rewrite bytes_app. simpl. intros H.
  apply elem_of_app in H as [H|H]; [exact (c_str_no_NUL a H)|].
  apply elem_of_cons in H as [H|H]; [discriminate | exact (c_str_no_NUL b H)].
Qed.

(** Below the size of the buffer the path is the directory, a slash and
    the name. *)
Lemma string_take_all n s : (String.length s <= n)%nat -> string_take n s = s.
Proof.
  revert s; induction n as [|n IH]; intros [|c s]; simpl; try reflexivity.
  - lia.
  - intros H. f_equal. apply IH. lia.
Qed.

Lemma snprintf_path_fits n a b :
  (String.length (c_str a ++ String "/" (c_str b)) < n)%nat ->
  snprintf_path n a b = (c_str a ++ String "/" (c_str b))%string.
Proof. intros H. apply string_take_all. lia. Qed.

Lemma string_length_app a b :
  String.length (a ++ b) = (String.length a + String.length b)%nat.
Proof. induction a as [|c a IH]; simpl; [reflexivity | now rewrite IH]. Qed.

Lemma bytes_string_take n s : bytes (string_take n s) = take n (bytes s).
Proof.
  revert s; induction n as [|n IH]; intros [|c s]; simpl; try reflexivity.
  now rewrite IH.
Qed.

(** The path built, byte by byte. *)
Lemma bytes_snprintf_path n a b :
  bytes (snprintf_path n a b)
  = take (n - 1) (bytes (c_str a) ++ "/"%char :: bytes (c_str b)).
Proof. unfold snprintf_path. now rewrite bytes_string_take, bytes_app. Qed.

(** A string without NUL is read whole. *)
Lemma c_str_whole s : NUL ∉ bytes s -> c_str s = s.
Proof.
  induction s as [|c s IH]; simpl; [reflexivity|]. intros H.
  destruct (Ascii.eqb_spec c NUL) as [->|Hne].
  - exfalso. apply H. now left.
  - f_equal. apply IH. intros H'. apply H. now right.
Qed.

Lemma emit_bytes s (nt : bool) : bytes (emit s nt) = bytes s ++ [separator nt].
Proof. unfold emit. now rewrite bytes_app. Qed.

End StringFacts.

(** ** Argument parsing *)

Section ParseFacts.

Lemma last_cons_option {A} (x : A) (l : list A) :
  last (x :: l) = match last l with Some y => Some y | None => Some x end.
Proof.
  revert x; induction l as [|a l IH]; intros x; [reflexivity|].
  change (last (x :: a :: l)) with (last (a :: l)).
  rewrite (IH a). now destruct (last l).
Qed.

Lemma parse_args_spec args (nt : bool) (dp : option string) :
  parse_args args nt dp =
  if existsb unknown_flag args then None
  else Some (nt || existsb is_null_flag args,
             match last (List.filter positional args) with
             | Some d => Some d
             | None => dp
             end).
Proof.
  revert nt dp; induction args as [|a args IH]; intros nt dp; simpl.
  - now rewrite orb_false_r.
  - unfold unknown_flag at 1, is_null_flag at 1, positional at 1.
    destruct (strcmp_eq a "-0"); simpl.
    + rewrite IH. destruct (existsb unknown_flag args); [reflexivity|].
      now rewrite orb_true_r.
    + destruct (first_char_is a "-"); simpl; [reflexivity|].
      rewrite IH. destruct (existsb unknown_flag args); [reflexivity|].
      rewrite last_cons_option.
      now destruct (last (List.filter positional args)).
Qed.

Lemma last_filter_elem (P : string -> bool) (args : list string) (d : string) :
  last (List.filter P args) = Some d -> d ∈ args /\ P d = true.
Proof.
  intros H. apply last_Some_elem_of in H.
  apply list_elem_of_In, filter_In in H as [H1 H2].
  split; [now apply list_elem_of_In | exact H2].
Qed.

End ParseFacts.

(** ** Where a record comes from *)

Section Origin.

Variable PATH_MAX : nat.
Variable strerror : Z -> string.
Implicit Types (p : proc) (e : entry) (es : list entry) (d : string)
  (nt : bool) (found : Z) (its : list iteration) (r : report).

Lemma scan_entries_origin d nt es p found r :
  r ∈ p_out (fst (fold_left (scan_entry PATH_MAX d nt) es (p, found))) ->
  r ∈ p_out p \/ exists e, e ∈ es /\ written_for PATH_MAX d nt r e.
Proof.
  revert p found; induction es as [|e es IH]; intros p found; cbn [fold_left].
  - now left.
  - rewrite scan_entry_candidate. intros Hr.
    assert (Hlater : forall q f,
      r ∈ p_out (fst (fold_left (scan_entry PATH_MAX d nt) es (q, f))) ->
      p_out q = p_out p ->
      r ∈ p_out p \/ exists e', e' ∈ e :: es /\ written_for PATH_MAX d nt r e').
    { intros q f Hq Hout. destruct (IH q f Hq) as [H|(e' & He' & Hw)].
      - left. now rewrite <- Hout.
      - right. exists e'. split; [now right | exact Hw]. }
    destruct (candidate e) as [i|] eqn:Hcand; [|now apply (Hlater p found)].
    destruct (is_seen (p_seen p) i); [now apply (Hlater p found)|].
    destruct (IH _ _ Hr) as [H|(e' & He' & Hw)].
    + cbn [p_out write_out set_seen] in H.
      apply elem_of_app in H as [H|H]; [now left|].
      apply list_elem_of_singleton in H as ->.
      right. exists e. split; [now left|]. split; [exact Hcand | reflexivity].
    + right. exists e'. split; [now right | exact Hw].
Qed.

Lemma event_loop_origin d nt its p r :
  r ∈ p_out (fst (event_loop PATH_MAX strerror d nt p its)) ->
  r ∈ p_out p
  \/ exists it es e,
       it ∈ its /\ it_listing it = Some es /\ e ∈ es /\ written_for PATH_MAX d nt r e.
Proof.
  revert p; induction its as [|it its IH]; intros p; cbn [event_loop].
  - now left.
  - assert (Hlater : forall q,
      r ∈ p_out (fst (event_loop PATH_MAX strerror d nt q its)) ->
      p_out q = p_out p ->
      r ∈ p_out p
      \/ exists it' es e, it' ∈ it :: its /\ it_listing it' = Some es
                          /\ e ∈ es /\ written_for PATH_MAX d nt r e).
    { intros q Hq Hout. destruct (IH q Hq) as [H|(it' & es & e & Hit & H)].
      - left. now rewrite <- Hout.
      - right. exists it', es, e. split; [now right | exact H]. }
    destruct (it_running it =? 0); [now left|].
    destruct (it_kevent it <? 0).
    + destruct (it_errno it =? EINTR); [intros H; now apply (Hlater p)|].
      now left.
    + destruct (0 <? it_kevent it); [|intros H; now apply (Hlater p)].
      intros Hr. destruct (IH _ Hr) as [H|(it' & es & e & Hit & H)].
      * destruct (it_listing it) as [es|] eqn:Hlist; cbn [scan_and_report] in H;
          [|now left].
        destruct (scan_entries_origin _ _ _ _ _ _ H) as [H'|(e & He & Hw)];
          [now left|].
        right. exists it, es, e. split; [now left|].
        split; [exact Hlist | split; assumption].
      * right. exists it', es, e. split; [now right | exact H].
Qed.

Lemma main_out progname args su its :
  match initializing PATH_MAX strerror progname args su with
  | InitExit _ _ => p_out (fst (main PATH_MAX strerror progname args su its)) = []
  | InitOk p0 nt d _ _ =>
      p_out (fst (main PATH_MAX strerror progname args su its))
      = p_out (fst (event_loop PATH_MAX strerror d nt p0 its))
  end.
Proof.
  unfold main.
  destruct (initializing PATH_MAX strerror progname args su)
    as [p status|p0 nt d kq dirfd] eqn:Hinit.
  - now destruct (initializing_exit_silent _ _ _ _ _ _ _ Hinit) as (_ & ? & _).
  - now destruct (event_loop PATH_MAX strerror d nt p0 its) as [p' []].
Qed.

Lemma main_seen progname args su its p0 nt d kq dirfd :
  initializing PATH_MAX strerror progname args su = InitOk p0 nt d kq dirfd ->
  p_seen (fst (main PATH_MAX strerror progname args su its))
  = p_seen (fst (event_loop PATH_MAX strerror d nt p0 its)).
Proof.
  unfold main. intros ->.
  now destruct (event_loop PATH_MAX strerror d nt p0 its) as [p' []].
Qed.

Lemma initializing_ok_state progname args su p0 nt d kq dirfd :
  initializing PATH_MAX strerror progname args su = InitOk p0 nt d kq dirfd ->
  seen_wf (p_seen p0) /\ p_out p0 = [] /\ p_err p0 = [] /\ p_closed p0 = [].
Proof.
  intros H. apply initializing_ok in H as (-> & _).
  apply (initial_scan_seen PATH_MAX (seed_listing su) d proc_init).
  exact seen_init_wf.
Qed.

End Origin.

(** * The claims *)

Section Claims.

Variable PATH_MAX : nat.
Variable strerror : Z -> string.
Implicit Types (p : proc) (e : entry) (es : list entry) (d : string)
  (nt : bool) (found : Z) (its : list iteration) (r : report).


(** C7: every record a run writes is the path of a listed file followed
    by one separator byte: NUL when [-0] is among the arguments, newline
    otherwise.  The file is an entry of the listing of one of the turns,
    with a visible name, which [stat] describes as a regular file with the
    record's inode number; the path is the directory argument (the last
    argument that is not a flag), a slash and the entry's name, cut to the
    [PATH_MAX - 1] bytes the path buffer holds, and for a directory and a
    name that fit in the buffer it is exactly these.  The path holds no
    NUL, so with [-0] the record's only NUL is its last byte, and nothing
    follows the separator. *)
Theorem record_separator progname args su its r :
  r ∈ p_out (fst (main PATH_MAX strerror progname args su its)) ->
  exists d it es e,
    d ∈ args
    /\ last (List.filter positional args) = Some d
    /\ it ∈ its /\ it_listing it = Some es /\ e ∈ es
    /\ candidate e = Some (r_ino r)
    /\ bytes (r_bytes r)
       = bytes (snprintf_path PATH_MAX d (d_name e))
         ++ [(if existsb is_null_flag args then NUL else LF)]
    /\ bytes (snprintf_path PATH_MAX d (d_name e))
       = take (PATH_MAX - 1)
           (bytes (c_str d) ++ "/"%char :: bytes (c_str (d_name e)))
    /\ (NUL ∉ bytes d -> NUL ∉ bytes (d_name e) ->
        (String.length d + 1 + String.length (d_name e) < PATH_MAX)%nat ->
        bytes (r_bytes r)
        = bytes d ++ "/"%char :: bytes (d_name e)
          ++ [(if existsb is_null_flag args then NUL else LF)])
    /\ (NUL ∉ bytes (snprintf_path PATH_MAX d (d_name e)))
    /\ last (bytes (r_bytes r))
       = Some (if existsb is_null_flag args then NUL else LF).
Proof.
  intros Hr.
  pose proof (main_out PATH_MAX strerror progname args su its) as Hout.
  destruct (initializing PATH_MAX strerror progname args su)
    as [p status|p0 nt d kq dirfd] eqn:Hinit.
  { rewrite Hout in Hr. inversion Hr. }
  rewrite Hout in Hr.
  destruct (initializing_ok_state _ _ _ _ _ _ _ _ _ _ Hinit) as (_ & Hnil & _).
  apply initializing_ok in Hinit as (_ & _ & _ & Hparse & _).
  rewrite parse_args_spec in Hparse.
  destruct (existsb unknown_flag args); [discriminate|].
  destruct (last (List.filter positional args)) as [d'|] eqn:Hlast;
    [|discriminate].
  injection Hparse as Hnt Hd. subst d' nt. cbn [orb] in Hr.
  pose proof (last_filter_elem _ _ _ Hlast) as [Hin _].
  apply event_loop_origin in Hr
    as [Hr|(it & es & e & Hit & Hes & He & Hcand & Hb)].
  { rewrite Hnil in Hr. inversion Hr. }
  exists d, it, es, e.
  assert (Hrec : bytes (r_bytes r)
                 = bytes (snprintf_path PATH_MAX d (d_name e))
                   ++ [(if existsb is_null_flag args then NUL else LF)]).
  { rewrite Hb, emit_bytes. reflexivity. }
  split; [exact Hin|]. split; [reflexivity|].
  split; [exact Hit|]. split; [exact Hes|]. split; [exact He|].
  split; [exact Hcand|]. split; [exact Hrec|].
  split; [apply bytes_snprintf_path|].
  split; [|split; [apply snprintf_path_no_NUL | rewrite Hrec; apply last_snoc]].
  intros Hd Hname Hfit. rewrite Hrec, snprintf_path_fits.
  - rewrite (c_str_whole d Hd), (c_str_whole (d_name e) Hname), bytes_app.
    cbn [bytes list_ascii_of_string]. now rewrite <- app_assoc.
  - rewrite (c_str_whole d Hd), (c_str_whole (d_name e) Hname).
    rewrite string_length_app. cbn [String.length]. lia.
Qed.

(** C8: an entry whose name starts with a dot, whatever it refers to,
    leaves the process state and the counter untouched in the reporting
    scan and the seen-set untouched in the initial scan; a scan of a
    listing gives the same result with or without such an entry in it. *)
Theorem hidden_entries_skipped d nt p found (s : seen_set) e :
  first_char_is (d_name e) "." = true ->
  scan_entry PATH_MAX d nt (p, found) e = (p, found)
  /\ initial_scan_entry PATH_MAX d s e = s
  /\ forall before after,
       scan_and_report PATH_MAX (Some (before ++ e :: after)) d nt p
       = scan_and_report PATH_MAX (Some (before ++ after)) d nt p
       /\ initial_scan PATH_MAX (Some (before ++ e :: after)) d p
          = initial_scan PATH_MAX (Some (before ++ after)) d p.
Proof.
  intros Hdot.
  assert (Hscan : forall acc, scan_entry PATH_MAX d nt acc e = acc).
  { intros [q f]. unfold scan_entry. now rewrite Hdot. }
  assert (Hinit : forall s', initial_scan_entry PATH_MAX d s' e = s').
  { intros s'. unfold initial_scan_entry. now rewrite Hdot. }
  split; [apply Hscan|]. split; [apply Hinit|].
  intros before after. cbn [scan_and_report initial_scan].
  rewrite !fold_left_app. cbn [fold_left]. now rewrite Hscan, Hinit.
Qed.

(** C9 (as amended): a scan judges an entry by what [stat] says of its
    path, and [stat] follows symbolic links.  An entry whose [stat] fails
    (nothing there any more, or a dangling link) and an entry that resolves
    to anything but a regular file (a directory, a device, a fifo, a
    socket, or a link to one) leave standard output, standard error, the
    seen-set and the counter untouched; an entry that changes anything has
    a visible name and resolves, possibly through links, to a regular file
    whose inode number was not in the seen-set.  Conversely an entry with a
    visible name that resolves to a regular file whose inode number is not
    in the seen-set, be it the file itself or a symbolic link that leads to
    it, is reported: the file's inode number is inserted and one record is
    written, with the path built from the entry's own name. *)
Theorem scan_judges_by_stat d nt p found e :
  (stat e = None -> scan_entry PATH_MAX d nt (p, found) e = (p, found))
  /\ (forall n ft perm ino,
        e_node e = Some n -> resolve n = Some (ft, perm, ino) ->
        ft <> Regular ->
        scan_entry PATH_MAX d nt (p, found) e = (p, found))
  /\ (scan_entry PATH_MAX d nt (p, found) e <> (p, found) ->
        exists n perm ino,
          first_char_is (d_name e) "." = false
          /\ e_node e = Some n /\ resolve n = Some (Regular, perm, ino)
          /\ is_seen (p_seen p) ino = false
          /\ scan_entry PATH_MAX d nt (p, found) e
             = (write_out (set_seen p (mark_seen (p_seen p) ino))
                  {| r_ino := ino;
                     r_bytes := emit (snprintf_path PATH_MAX d (d_name e)) nt |},
                found + 1))
  /\ (forall n perm ino,
        first_char_is (d_name e) "." = false ->
        e_node e = Some n -> resolve n = Some (Regular, perm, ino) ->
        is_seen (p_seen p) ino = false ->
        scan_entry PATH_MAX d nt (p, found) e
        = (write_out (set_seen p (mark_seen (p_seen p) ino))
             {| r_ino := ino;
                r_bytes := emit (snprintf_path PATH_MAX d (d_name e)) nt |},
           found + 1)).
Proof.
  rewrite scan_entry_candidate. split; [|split; [|split]].
  - intros Hst. destruct (candidate e) as [i|] eqn:Hc; [|reflexivity].
    apply candidate_Some in Hc as (_ & st & Hst' & _). congruence.
  - intros n ft perm ino Hn Hres Hft.
    destruct (candidate e) as [i|] eqn:Hc; [|reflexivity].
    apply candidate_Some in Hc as (_ & st & Hst & Hreg & _).
    apply stat_resolve in Hst as (n' & ft' & perm' & Hn' & Hres' & Hiff).
    apply Hiff in Hreg. congruence.
  - intros Hchg. destruct (candidate e) as [i|] eqn:Hc; [|congruence].
    destruct (is_seen (p_seen p) i) eqn:Hseen; [congruence|].
    apply candidate_Some in Hc as (Hvis & st & Hst & Hreg & <-).
    apply stat_resolve in Hst as (n & ft & perm & Hn & Hres & Hiff).
    apply Hiff in Hreg as ->.
    exists n, perm, (st_ino st). now repeat split.
  - intros n perm ino Hvis Hn Hres Hnew.
    assert (Hc : candidate e = Some ino).
    { apply candidate_Some. split; [exact Hvis|].
      unfold stat, stat_node. rewrite Hn, Hres. eexists. split; [reflexivity|].
      split; [now apply S_ISREG_type_bits | reflexivity]. }
    now rewrite Hc, Hnew.
Qed.

(** C10: when [opendir] fails in a reporting scan, [scan_and_report]
    returns 0 with the process state (standard output, standard error,
    seen-set) as it was, and the event loop goes on to its next turn with
    that state; a failure of [open] on the directory at start-up ends the
    run with a diagnostic on standard error and status 1. *)
Theorem scan_open_failure_not_fatal d nt p it rest :
  it_running it <> 0 -> 0 < it_kevent it -> it_listing it = None ->
  scan_and_report PATH_MAX (it_listing it) d nt p = (p, 0)
  /\ event_loop PATH_MAX strerror d nt p (it :: rest)
     = event_loop PATH_MAX strerror d nt p rest
  /\ forall progname args su its nt' dirpath,
       parse_args args false None = Some (nt', Some dirpath) ->
       open_ret su < 0 ->
       main PATH_MAX strerror progname args su its
       = (write_err proc_init
            ("sic-watcher: cannot open '" ++ c_str dirpath ++ "': "
             ++ c_str (strerror (open_errno su)) ++ nl)%string,
          Exited 1).
Proof.
  intros Hrun Hn Hlist. rewrite Hlist. split; [reflexivity|]. split.
  - cbn [event_loop]. rewrite Hlist.
    destruct (Z.eqb_spec (it_running it) 0); [contradiction|].
    destruct (Z.ltb_spec (it_kevent it) 0); [lia|].
    destruct (Z.ltb_spec 0 (it_kevent it)); [reflexivity | lia].
  - intros progname args su its nt' dirpath Hparse Hopen.
    unfold main, initializing. rewrite Hparse.
    destruct (Z.ltb_spec (open_ret su) 0); [reflexivity | lia].
Qed.

(** C4 (as amended): an argument that starts with a dash and is not [-0],
    or the absence of any argument that does not start with a dash, makes
    the run write the two usage lines to standard error and exit with
    status 1 without reaching the event loop or writing anything else.
    When the event loop is reached, no such argument was given, the
    directory is the last argument that does not start with a dash (earlier
    ones are dropped), and [null_term] tells whether [-0] was given. *)
Theorem usage_on_bad_arguments progname args su :
  (existsb unknown_flag args = true \/ List.filter positional args = [] ->
     initializing PATH_MAX strerror progname args su
     = InitExit (usage progname proc_init) 1
     /\ (forall its, main PATH_MAX strerror progname args su its
                     = (usage progname proc_init, Exited 1))
     /\ p_err (usage progname proc_init)
        = [("Usage: " ++ c_str progname ++ " [-0] <directory>" ++ nl)%string;
           ("  -0    Null-terminated output" ++ nl)%string]
     /\ p_out (usage progname proc_init) = []
     /\ p_seen (usage progname proc_init) = seen_init)
  /\ (forall p nt d kq dirfd,
        initializing PATH_MAX strerror progname args su = InitOk p nt d kq dirfd ->
        existsb unknown_flag args = false
        /\ last (List.filter positional args) = Some d
        /\ nt = existsb is_null_flag args).
Proof.
  split.
  - intros Hbad.
    assert (Hinit : initializing PATH_MAX strerror progname args su
                    = InitExit (usage progname proc_init) 1).
    { unfold initializing. rewrite parse_args_spec.
      destruct (existsb unknown_flag args); [reflexivity|].
      destruct Hbad as [Hbad| ->]; [discriminate | reflexivity]. }
    split; [exact Hinit|]. split; [|now repeat split].
    intros its. unfold main. now rewrite Hinit.
  - intros p nt d kq dirfd Hinit.
    apply initializing_ok in Hinit as (_ & _ & _ & Hparse & _).
    rewrite parse_args_spec in Hparse.
    destruct (existsb unknown_flag args); [discriminate|].
    destruct (last (List.filter positional args)) as [d'|]; [|discriminate].
    injection Hparse as Hnt Hd. subst. now repeat split.
Qed.

End Claims.

(** * Further properties *)

(** ** The seen-set as a window over the insertions *)

Section WindowFacts.

Implicit Types (s : seen_set) (i j : ino_t) (l ids : list ino_t).

Lemma fold_mark_seen_wf ids s : seen_wf s -> seen_wf (fold_left mark_seen ids s).
Proof.
  revert s; induction ids as [|i ids IH]; intros s Hwf; [exact Hwf|].
  apply IH. now apply mark_seen_wf.
Qed.

Lemma length_window l :
  length (window l) = Nat.min (length l) (Z.to_nat MAX_SEEN).
Proof. unfold window. rewrite length_drop. lia. Qed.

Lemma window_mark_seen s i :
  seen_wf s -> tracked (mark_seen s i) = window (tracked s ++ [i]).
Proof.
  intros Hwf. pose proof (length_tracked s Hwf) as Hlen.
  pose proof MAX_SEEN_pos as Hpos. destruct (proj2 Hwf) as [H0 HK].
  unfold window. rewrite length_app. cbn [length].
  destruct (Z.eq_dec (seen_count s) MAX_SEEN) as [Heq|Hne].
  - destruct (tracked_mark_seen_full s i Hwf Heq) as [-> _].
    replace (length (tracked s) + 1 - Z.to_nat MAX_SEEN)%nat with 1%nat by lia.
    destruct (tracked s) as [|x t]; [simpl in Hlen; lia | reflexivity].
  - destruct (tracked_mark_seen_room s i Hwf) as [-> _]; [lia|].
    replace (length (tracked s) + 1 - Z.to_nat MAX_SEEN)%nat with 0%nat by lia.
    reflexivity.
Qed.

Lemma window_app l ids : window (window l ++ ids) = window (l ++ ids).
Proof.
  unfold window at 2. set (d := (length l - Z.to_nat MAX_SEEN)%nat).
  assert (Hd : (d <= length l)%nat) by (unfold d; lia).
  replace (drop d l ++ ids) with (drop d (l ++ ids))
    by (rewrite drop_app_le by exact Hd; reflexivity).
  unfold window. rewrite drop_drop, length_drop, length_app.
  f_equal. unfold d. lia.
Qed.

Lemma window_fold_mark_seen ids s :
  seen_wf s -> tracked (fold_left mark_seen ids s) = window (tracked s ++ ids).
Proof.
  revert s; induction ids as [|i ids IH]; intros s Hwf; cbn [fold_left].
  - rewrite app_nil_r. unfold window, tracked. rewrite length_take.
    destruct Hwf as [Hlen Hc].
    replace (_ - _)%nat with 0%nat by lia. reflexivity.
  - rewrite IH by now apply mark_seen_wf.
    rewrite window_mark_seen by exact Hwf.
    rewrite window_app, <- app_assoc. reflexivity.
Qed.

End WindowFacts.

(** X1: after any sequence of insertions into a well-formed seen-set the
    tracked entries are exactly the last [MAX_SEEN] elements of the old
    entries followed by the inserted inode numbers, in that order, and the
    count is the total number of them capped at [MAX_SEEN]. *)
Theorem seen_set_holds_last_insertions (s : seen_set) (ids : list ino_t) :
  seen_wf s ->
  tracked (fold_left mark_seen ids s) = window (tracked s ++ ids)
  /\ seen_count (fold_left mark_seen ids s)
     = Z.min (seen_count s + Z.of_nat (length ids)) MAX_SEEN.
Proof.
  intros Hwf. pose proof (window_fold_mark_seen ids s Hwf) as Hwin.
  split; [exact Hwin|].
  pose proof (fold_mark_seen_wf ids s Hwf) as Hwf'.
  rewrite <- (length_tracked _ Hwf'), Hwin, length_window, length_app.
  rewrite <- (length_tracked _ Hwf). destruct Hwf as [_ Hc]. lia.
Qed.

(** X2: what one insertion does to later membership tests.  [mark_seen]
    never makes [is_seen] true for an inode number other than the one
    inserted; below capacity it forgets nothing; at capacity the only
    number it can make [is_seen] forget is the oldest entry. *)
Theorem is_seen_after_mark_seen (s : seen_set) (i j : ino_t) :
  seen_wf s ->
  (is_seen (mark_seen s i) j = true -> j = i \/ is_seen s j = true)
  /\ (seen_count s < MAX_SEEN ->
        is_seen (mark_seen s i) j = (j =? i)%N || is_seen s j)
  /\ (is_seen s j = true -> is_seen (mark_seen s i) j = false ->
        seen_count s = MAX_SEEN /\ head (tracked s) = Some j).
Proof.
  intros Hwf. pose proof (proj2 Hwf) as [H0 HK].
  assert (Hroom := tracked_mark_seen_room s i Hwf).
  assert (Hfull := tracked_mark_seen_full s i Hwf).
  split; [|split].
  - rewrite !is_seen_tracked.
    destruct (Z.eq_dec (seen_count s) MAX_SEEN) as [Heq|Hne].
    + destruct (Hfull Heq) as [-> _]. intros H.
      apply elem_of_app in H as [H|H].
      * right. exact (subseteq_drop _ _ _ H).
      * left. now apply list_elem_of_singleton in H.
    + destruct Hroom as [-> _]; [lia|]. intros H.
      apply elem_of_app in H as [H|H]; [now right|].
      left. now apply list_elem_of_singleton in H.
  - intros Hlt. destruct (Hroom Hlt) as [Htr _].
    apply eq_true_iff_eq. rewrite orb_true_iff, N.eqb_eq, !is_seen_tracked, Htr.
    rewrite elem_of_app, list_elem_of_singleton. tauto.
  - intros Hin Hout. apply is_seen_tracked in Hin.
    apply is_seen_false_tracked in Hout.
    destruct (Z.eq_dec (seen_count s) MAX_SEEN) as [Heq|Hne].
    + split; [exact Heq|]. destruct (Hfull Heq) as [Htr _]. rewrite Htr in Hout.
      apply not_elem_of_app in Hout as [Hout _].
      destruct (tracked s) as [|x t]; [inversion Hin|].
      apply elem_of_cons in Hin as [->|Hin]; [reflexivity | contradiction].
    + destruct Hroom as [Htr _]; [lia|]. rewrite Htr in Hout.
      apply not_elem_of_app in Hout as [Hout _]. contradiction.
Qed.

(** X3: [is_seen] looks at the first [seen_count] cells of the array and
    at no other: it answers true exactly when one of them holds the inode
    number.  The zero-filled array of a fresh set matches nothing, inode
    number 0 included. *)
Theorem is_seen_reads_counted_cells (s : seen_set) (i : ino_t) :
  (is_seen s i = true <->
   exists k : nat, Z.of_nat k < seen_count s /\ seen_inodes s !! k = Some i)
  /\ is_seen seen_init i = false.
Proof.
  split; [|reflexivity].
  unfold is_seen. rewrite is_seen_loop_spec, elem_of_take.
  split; intros (k & H1 & H2); exists k; split; try assumption; lia.
Qed.

(** ** Scans *)

Section ScanMore.

Variable PATH_MAX : nat.
Implicit Types (p : proc) (e : entry) (es : list entry) (d : string)
  (nt : bool) (found : Z) (r : report) (i j : ino_t).

Lemma tracked_mark_seen_subset (s : seen_set) i j :
  seen_wf s -> j ∈ tracked (mark_seen s i) -> j = i \/ j ∈ tracked s.
Proof.
  intros Hwf. destruct (proj2 Hwf) as [H0 HK].
  destruct (Z.eq_dec (seen_count s) MAX_SEEN) as [Heq|Hne].
  - destruct (tracked_mark_seen_full s i Hwf Heq) as [-> _]. intros H.
    apply elem_of_app in H as [H|H].
    + right. exact (subseteq_drop _ _ _ H).
    + left. now apply list_elem_of_singleton in H.
  - destruct (tracked_mark_seen_room s i Hwf) as [-> _]; [lia|]. intros H.
    apply elem_of_app in H as [H|H]; [now right|].
    left. now apply list_elem_of_singleton in H.
Qed.

Lemma candidates_cons e es :
  candidates (e :: es)
  = match candidate e with
    | Some i => i :: candidates es
    | None => candidates es
    end.
Proof. reflexivity. Qed.

Lemma elem_of_candidates es i :
  i ∈ candidates es <-> exists e, e ∈ es /\ candidate e = Some i.
Proof. apply list_elem_of_omap. Qed.

(** The records of a scan, entry by entry: those entries of the listing
    that get a record form a sublist [kept] of it, and the records
    written are theirs, in the same order. *)
Lemma scan_entries_shape d nt es p found :
  exists kept new,
    kept `sublist_of` es
    /\ Forall2 (written_for PATH_MAX d nt) new kept
    /\ p_out (fst (fold_left (scan_entry PATH_MAX d nt) es (p, found)))
       = p_out p ++ new
    /\ snd (fold_left (scan_entry PATH_MAX d nt) es (p, found))
       = found + Z.of_nat (length new)
    /\ p_err (fst (fold_left (scan_entry PATH_MAX d nt) es (p, found))) = p_err p
    /\ p_closed (fst (fold_left (scan_entry PATH_MAX d nt) es (p, found)))
       = p_closed p.
Proof.
  revert p found; induction es as [|e es IH]; intros p found; cbn [fold_left].
  - exists [], []. rewrite app_nil_r. cbn [length fst snd].
    repeat split; [constructor | constructor | lia].
  - rewrite scan_entry_candidate.
    assert (Hskip : forall q f, q = p -> f = found ->
      exists kept new,
        kept `sublist_of` e :: es
        /\ Forall2 (written_for PATH_MAX d nt) new kept
        /\ p_out (fst (fold_left (scan_entry PATH_MAX d nt) es (q, f)))
           = p_out p ++ new
        /\ snd (fold_left (scan_entry PATH_MAX d nt) es (q, f))
           = found + Z.of_nat (length new)
        /\ p_err (fst (fold_left (scan_entry PATH_MAX d nt) es (q, f))) = p_err p
        /\ p_closed (fst (fold_left (scan_entry PATH_MAX d nt) es (q, f)))
           = p_closed p).
    { intros q f -> ->.
      destruct (IH p found) as (kept & new & Hsub & Hall & Hrest).
      exists kept, new. split; [now apply sublist_cons|]. now split. }
    destruct (candidate e) as [i|] eqn:Hcand; [|now apply Hskip].
    destruct (is_seen (p_seen p) i); [now apply Hskip|].
    match goal with
    | |- context [fold_left _ es (?q, ?f)] =>
        destruct (IH q f) as (kept & new & Hsub & Hall & Hout & Hfound & Herr & Hcl)
    end.
    exists (e :: kept), ({| r_ino := i;
                            r_bytes := emit (snprintf_path PATH_MAX d (d_name e)) nt |}
                         :: new).
    split; [now apply sublist_skip|].
    split; [constructor; [now split | exact Hall]|].
    split; [rewrite Hout; cbn [p_out write_out set_seen];
            now rewrite <- app_assoc|].
    split; [rewrite Hfound; cbn [length]; lia|].
    split; assumption.
Qed.

(** A scan of a listing whose inode numbers are all in the seen-set
    changes nothing. *)
Lemma scan_entries_nothing_new d nt es p found :
  (forall i, i ∈ candidates es -> is_seen (p_seen p) i = true) ->
  fold_left (scan_entry PATH_MAX d nt) es (p, found) = (p, found).
Proof.
  induction es as [|e es IH]; intros Hall; [reflexivity|].
  cbn [fold_left]. rewrite scan_entry_candidate.
  rewrite candidates_cons in Hall.
  destruct (candidate e) as [i|]; [|now apply IH].
  rewrite (Hall i) by now left. apply IH.
  intros j Hj. apply Hall. now right.
Qed.

(** Every inode number a scan looks up was in the seen-set before the
    scan or is written by it. *)
Lemma scan_entries_cover d nt es p found i :
  seen_wf (p_seen p) -> i ∈ candidates es ->
  exists new,
    p_out (fst (fold_left (scan_entry PATH_MAX d nt) es (p, found)))
    = p_out p ++ new
    /\ (i ∈ tracked (p_seen p) \/ i ∈ (r_ino <$> new)).
Proof.
  revert p found; induction es as [|e es IH]; intros p found Hwf Hin.
  { inversion Hin. }
  cbn [fold_left]. rewrite scan_entry_candidate.
  rewrite candidates_cons in Hin.
  destruct (candidate e) as [i0|] eqn:Hcand; [|now apply IH].
  destruct (is_seen (p_seen p) i0) eqn:Hseen.
  - apply elem_of_cons in Hin as [->|Hin]; [|now apply IH].
    destruct (scan_entries_shape d nt es p found) as (_ & new & _ & _ & Hout & _).
    exists new. split; [exact Hout|]. left. now apply is_seen_tracked.
  - set (r0 := {| r_ino := i0;
                  r_bytes := emit (snprintf_path PATH_MAX d (d_name e)) nt |}).
    set (p1 := write_out (set_seen p (mark_seen (p_seen p) i0)) r0).
    assert (Hwf1 : seen_wf (p_seen p1)) by now apply mark_seen_wf.
    assert (Hhere : forall new,
      p_out (fst (fold_left (scan_entry PATH_MAX d nt) es (p1, found + 1)))
      = p_out p1 ++ new ->
      p_out (fst (fold_left (scan_entry PATH_MAX d nt) es (p1, found + 1)))
      = p_out p ++ r0 :: new).
    { intros new ->. cbn [p1 p_out write_out set_seen].
      now rewrite <- app_assoc. }
    apply elem_of_cons in Hin as [->|Hin].
    + destruct (scan_entries_shape d nt es p1 (found + 1))
        as (_ & new & _ & _ & Hout & _).
      exists (r0 :: new). split; [now apply Hhere|]. right. now left.
    + destruct (IH p1 (found + 1) Hwf1 Hin) as (new & Hout & Hcase).
      exists (r0 :: new). split; [now apply Hhere|].
      destruct Hcase as [Htr|Hnew]; [|right; now right].
      destruct (tracked_mark_seen_subset _ _ _ Hwf Htr) as [->|Htr'];
        [right; now left | now left].
Qed.

Lemma scan_and_report_quiet (listing : option (list entry)) d nt p :
  p_err (fst (scan_and_report PATH_MAX listing d nt p)) = p_err p
  /\ p_closed (fst (scan_and_report PATH_MAX listing d nt p)) = p_closed p.
Proof.
  destruct listing as [es|]; cbn [scan_and_report]; [|now split].
  destruct (scan_entries_shape d nt es p 0) as (_ & _ & _ & _ & _ & _ & Herr & Hcl).
  now split.
Qed.

Lemma initial_scan_entries_mark d es (s : seen_set) :
  fold_left (initial_scan_entry PATH_MAX d) es s
  = fold_left mark_seen (candidates es) s.
Proof.
  revert s; induction es as [|e es IH]; intros s; [reflexivity|].
  cbn [fold_left]. rewrite initial_scan_entry_candidate, candidates_cons.
  destruct (candidate e); apply IH.
Qed.

Lemma window_short (l : list ino_t) :
  Z.of_nat (length l) <= MAX_SEEN -> window l = l.
Proof.
  intros H. unfold window.
  replace (_ - _)%nat with 0%nat by lia. reflexivity.
Qed.

End ScanMore.

Section ScanProperties.

Variable PATH_MAX : nat.
Variable strerror : Z -> string.
Implicit Types (p : proc) (e : entry) (es : list entry) (d : string)
  (nt : bool) (found : Z) (r : report) (i j : ino_t)
  (listing : option (list entry)).

(** X4: a reporting scan misses no new file.  Every entry of the listing
    with a visible name that [stat] describes as a regular file, and whose
    inode number [is_seen] does not know when the scan starts, has that
    inode number among the records the scan writes. *)
Theorem scan_reports_every_new_file d nt es p e i :
  seen_wf (p_seen p) ->
  e ∈ es -> candidate e = Some i -> is_seen (p_seen p) i = false ->
  exists new r,
    p_out (fst (scan_and_report PATH_MAX (Some es) d nt p)) = p_out p ++ new
    /\ r ∈ new /\ r_ino r = i.
Proof.
  intros Hwf He Hcand Hfresh. cbn [scan_and_report].
  assert (Hin : i ∈ candidates es) by (apply elem_of_candidates; eauto).
  destruct (scan_entries_cover PATH_MAX d nt es p 0 i Hwf Hin)
    as (new & Hout & [Hold|Hnew]).
  - apply is_seen_false_tracked in Hfresh. contradiction.
  - apply list_elem_of_fmap in Hnew as (r & -> & Hr). now exists new, r.
Qed.

(** X5: the records of a scan follow the listing.  The entries that get a
    record form a sublist of the listing, each gets one record (its inode
    number, and the path built from the directory and its name followed by
    the separator), and the records are appended to standard output in the
    order of the listing. *)
Theorem scan_writes_in_listing_order d nt es p :
  exists kept new,
    kept `sublist_of` es
    /\ Forall2 (written_for PATH_MAX d nt) new kept
    /\ p_out (fst (scan_and_report PATH_MAX (Some es) d nt p)) = p_out p ++ new.
Proof.
  destruct (scan_entries_shape PATH_MAX d nt es p 0)
    as (kept & new & Hsub & Hall & Hout & _).
  now exists kept, new.
Qed.

(** X6: the value [scan_and_report] returns is the number of records it
    wrote, between 0 and the number of entries listed (0 when [opendir]
    fails); the scan writes nothing to standard error. *)
Theorem scan_and_report_return_value listing d nt p :
  Z.of_nat (length (p_out (fst (scan_and_report PATH_MAX listing d nt p))))
  = Z.of_nat (length (p_out p)) + snd (scan_and_report PATH_MAX listing d nt p)
  /\ 0 <= snd (scan_and_report PATH_MAX listing d nt p)
       <= Z.of_nat (length (default [] listing))
  /\ p_err (fst (scan_and_report PATH_MAX listing d nt p)) = p_err p.
Proof.
  destruct listing as [es|];
    [change (default [] (Some es)) with es
    |change (default [] (@None (list entry))) with (@nil entry)];
    cbn [scan_and_report fst snd length].
  - destruct (scan_entries_shape PATH_MAX d nt es p 0)
      as (kept & new & Hsub & Hall & Hout & Hfound & Herr & _).
    apply sublist_length in Hsub. apply Forall2_length in Hall.
    rewrite Hout, Hfound, length_app. repeat split; try assumption; lia.
  - repeat split; lia.
Qed.

(** X7: scanning an unchanged directory again reports nothing.  After a
    scan during which the seen-set did not overflow (the entries held
    before plus the records written fit in [MAX_SEEN]), a second scan of
    the same listing returns 0 and leaves the process state as it is. *)
Theorem rescan_reports_nothing d nt es p :
  seen_wf (p_seen p) ->
  seen_count (p_seen p) + snd (scan_and_report PATH_MAX (Some es) d nt p)
    <= MAX_SEEN ->
  scan_and_report PATH_MAX (Some es) d nt
    (fst (scan_and_report PATH_MAX (Some es) d nt p))
  = (fst (scan_and_report PATH_MAX (Some es) d nt p), 0).
Proof.
  intros Hwf. cbn [scan_and_report].
  destruct (scan_entries_reports PATH_MAX d nt es p 0 Hwf)
    as (new & (_ & _ & Hout & Hfit) & Hfound).
  rewrite Hfound, Z.add_0_l. intros Hroom.
  destruct (Hfit Hroom) as (Htr & _).
  apply scan_entries_nothing_new. intros i Hi.
  apply is_seen_tracked. rewrite Htr.
  destruct (scan_entries_cover PATH_MAX d nt es p 0 i Hwf Hi)
    as (new' & Hout' & Hcase).
  rewrite Hout in Hout'. apply app_inv_head in Hout' as <-.
  apply elem_of_app. exact Hcase.
Qed.

(** X9: what the initial scan leaves in the seen-set: the inode numbers
    of the visible regular files of the start-up listing, in listing
    order, cut to the last [MAX_SEEN] of them; nothing when [opendir]
    fails.  Nothing is written to standard output or standard error. *)
Theorem initial_scan_holds_last_files listing d :
  tracked (p_seen (initial_scan PATH_MAX listing d proc_init))
  = window (candidates (default [] listing))
  /\ p_out (initial_scan PATH_MAX listing d proc_init) = []
  /\ p_err (initial_scan PATH_MAX listing d proc_init) = [].
Proof.
  split; [|now destruct listing].
  destruct listing as [es|];
    [change (default [] (Some es)) with es
    |change (default [] (@None (list entry))) with (@nil entry)];
    cbn [initial_scan p_seen set_seen proc_init].
  - rewrite initial_scan_entries_mark.
    rewrite window_fold_mark_seen by exact seen_init_wf.
    now rewrite tracked_init.
  - reflexivity.
Qed.

(** X8: files that are in the directory when the watch starts are not
    reported, as long as the seen-set does not overflow.  Over a run in
    which the visible regular files of the start-up listing plus the
    records written number at most [MAX_SEEN], no record carries the inode
    number of a file of the start-up listing, under whatever name and in
    whichever scan it is listed again. *)
Theorem files_present_at_startup_not_reported progname args su its es :
  seed_listing su = Some es ->
  Z.of_nat (length (candidates es))
  + Z.of_nat (length (p_out (fst (main PATH_MAX strerror progname args su its))))
    <= MAX_SEEN ->
  forall r,
    r ∈ p_out (fst (main PATH_MAX strerror progname args su its)) ->
    r_ino r ∉ candidates es.
Proof.
  intros Hseed.
  pose proof (main_out PATH_MAX strerror progname args su its) as Hout.
  destruct (initializing PATH_MAX strerror progname args su)
    as [p status|p0 nt d kq dirfd] eqn:Hinit.
  { rewrite Hout. intros _ r Hr. inversion Hr. }
  rewrite Hout.
  destruct (initializing_ok_state _ _ _ _ _ _ _ _ _ _ Hinit) as (Hwf & Hnil & _).
  apply initializing_ok in Hinit as (Hp0 & _).
  assert (Htr : tracked (p_seen p0) = window (candidates es)).
  { rewrite Hp0, Hseed. cbn [initial_scan p_seen set_seen proc_init].
    rewrite initial_scan_entries_mark.
    rewrite window_fold_mark_seen by exact seen_init_wf.
    now rewrite tracked_init. }
  destruct (event_loop_reports PATH_MAX strerror d nt its p0 Hwf)
    as (new & _ & _ & Hnew & Hfit).
  rewrite Hnew, Hnil, app_nil_l. intros Hroom r Hr.
  assert (Hshort : Z.of_nat (length (candidates es)) <= MAX_SEEN) by lia.
  rewrite (window_short _ Hshort) in Htr.
  destruct Hfit as (_ & _ & Hfresh).
  - rewrite <- (length_tracked _ Hwf), Htr. exact Hroom.
  - rewrite <- Htr. apply Hfresh. now apply list_elem_of_fmap_2.
Qed.

End ScanProperties.

(** ** The event loop and whole runs *)

Section RunProperties.

Variable PATH_MAX : nat.
Variable strerror : Z -> string.
Implicit Types (p : proc) (d : string) (nt : bool) (it : iteration)
  (its pre post more : list iteration).

Lemma event_loop_split d nt pre post p :
  event_loop PATH_MAX strerror d nt p (pre ++ post)
  = if snd (event_loop PATH_MAX strerror d nt p pre)
    then event_loop PATH_MAX strerror d nt p pre
    else event_loop PATH_MAX strerror d nt
           (fst (event_loop PATH_MAX strerror d nt p pre)) post.
Proof.
  revert p; induction pre as [|it pre IH]; intros p; [reflexivity|].
  cbn [app event_loop].
  destruct (it_running it =? 0); [reflexivity|].
  destruct (it_kevent it <? 0).
  - destruct (it_errno it =? EINTR); [apply IH | reflexivity].
  - destruct (0 <? it_kevent it); apply IH.
Qed.

(** Standard error and the closed descriptors over the loop: nothing is
    closed; nothing is written while the loop goes on, and at most the one
    line of the failed wait when it is left. *)
Lemma event_loop_quiet d nt its p :
  p_closed (fst (event_loop PATH_MAX strerror d nt p its)) = p_closed p
  /\ (snd (event_loop PATH_MAX strerror d nt p its) = false ->
        p_err (fst (event_loop PATH_MAX strerror d nt p its)) = p_err p)
  /\ (length (p_err (fst (event_loop PATH_MAX strerror d nt p its)))
      <= S (length (p_err p)))%nat.
Proof.
  revert p; induction its as [|it its IH]; intros p; cbn [event_loop].
  - cbn [fst snd]. split; [reflexivity|]. split; [reflexivity | lia].
  - destruct (it_running it =? 0).
    { cbn [fst snd]. split; [reflexivity|]. split; [reflexivity | lia]. }
    destruct (it_kevent it <? 0).
    + destruct (it_errno it =? EINTR); [apply IH|].
      cbn [fst snd perror write_err p_closed p_err].
      split; [reflexivity|]. split; [discriminate|].
      rewrite length_app. cbn [length]. lia.
    + destruct (0 <? it_kevent it); [|apply IH].
      destruct (scan_and_report_quiet PATH_MAX (it_listing it) d nt p)
        as (Herr & Hcl).
      destruct (IH (fst (scan_and_report PATH_MAX (it_listing it) d nt p)))
        as (H1 & H2 & H3).
      rewrite Hcl in H1. rewrite Herr in H2, H3. now repeat split.
Qed.

Lemma event_loop_distinct d nt its p :
  seen_wf (p_seen p) -> NoDup (tracked (p_seen p)) ->
  NoDup (tracked (p_seen (fst (event_loop PATH_MAX strerror d nt p its)))).
Proof.
  revert p; induction its as [|it its IH]; intros p Hwf Hnd; cbn [event_loop].
  - exact Hnd.
  - destruct (it_running it =? 0); [exact Hnd|].
    destruct (it_kevent it <? 0).
    + destruct (it_errno it =? EINTR); [now apply IH | exact Hnd].
    + destruct (0 <? it_kevent it); [|now apply IH].
      apply IH.
      * destruct (scan_and_report_reports PATH_MAX (it_listing it) d nt p Hwf)
          as (new & (_ & Hwf' & _) & _). exact Hwf'.
      * now apply scan_and_report_distinct.
Qed.

(** X11: a wait that times out ([kevent] returns 0) and a wait interrupted
    by a signal ([EINTR]) are invisible: while [g_running] is set such a
    turn changes nothing, and a run gives the same result with these turns
    taken out. *)
Theorem idle_turns_change_nothing d nt its p :
  event_loop PATH_MAX strerror d nt p its
  = event_loop PATH_MAX strerror d nt p
      (List.filter (fun it => negb (idle_turn it)) its).
Proof.
  revert p; induction its as [|it its IH]; intros p; [reflexivity|].
  cbn [List.filter]. unfold idle_turn at 1.
  destruct (Z.eqb_spec (it_running it) 0) as [Hrun|Hrun]; cbn [negb andb].
  { cbn [event_loop]. now rewrite (proj2 (Z.eqb_eq _ _) Hrun). }
  destruct (Z.ltb_spec (it_kevent it) 0) as [Hneg|Hnn].
  - cbn [andb]. destruct (Z.eqb_spec (it_errno it) EINTR) as [Hint|Hint];
      cbn [orb negb].
    + cbn [event_loop]. rewrite (proj2 (Z.eqb_neq _ _) Hrun).
      rewrite (proj2 (Z.ltb_lt _ _) Hneg), (proj2 (Z.eqb_eq _ _) Hint).
      apply IH.
    + replace (it_kevent it =? 0) with false by (symmetry; apply Z.eqb_neq; lia).
      cbn [negb event_loop]. rewrite (proj2 (Z.eqb_neq _ _) Hrun).
      rewrite (proj2 (Z.ltb_lt _ _) Hneg), (proj2 (Z.eqb_neq _ _) Hint).
      reflexivity.
  - cbn [andb orb]. destruct (Z.eqb_spec (it_kevent it) 0) as [Hzero|Hpos];
      cbn [negb event_loop]; rewrite (proj2 (Z.eqb_neq _ _) Hrun);
      rewrite (proj2 (Z.ltb_ge _ _) Hnn).
    + replace (0 <? it_kevent it) with false by (symmetry; apply Z.ltb_ge; lia).
      apply IH.
    + replace (0 <? it_kevent it) with true by (symmetry; apply Z.ltb_lt; lia).
      apply IH.
Qed.

(** X12: shutdown by signal.  When the loop test reads [g_running == 0]
    after turns that did not end the loop, the run closes [kq], then
    [dirfd], and returns 0; nothing was written to standard error, standard
    output is what the earlier turns wrote, and the turns after that one do
    not matter. *)
Theorem shutdown_exits_zero progname args su p0 nt d kq dirfd pre it post :
  initializing PATH_MAX strerror progname args su = InitOk p0 nt d kq dirfd ->
  snd (event_loop PATH_MAX strerror d nt p0 pre) = false ->
  it_running it = 0 ->
  main PATH_MAX strerror progname args su (pre ++ it :: post)
  = (close (close (fst (event_loop PATH_MAX strerror d nt p0 pre)) kq) dirfd,
     Exited 0)
  /\ p_err (fst (main PATH_MAX strerror progname args su (pre ++ it :: post))) = []
  /\ p_closed (fst (main PATH_MAX strerror progname args su (pre ++ it :: post)))
     = [kq; dirfd]
  /\ p_out (fst (main PATH_MAX strerror progname args su (pre ++ it :: post)))
     = p_out (fst (event_loop PATH_MAX strerror d nt p0 pre)).
Proof.
  intros Hinit Hpre Hrun.
  destruct (initializing_ok_state _ _ _ _ _ _ _ _ _ _ Hinit)
    as (_ & _ & Herr0 & Hcl0).
  destruct (event_loop_quiet d nt pre p0) as (Hcl & Herr & _).
  assert (Hmain : main PATH_MAX strerror progname args su (pre ++ it :: post)
                  = (close (close (fst (event_loop PATH_MAX strerror d nt p0 pre))
                              kq) dirfd, Exited 0)).
  { unfold main. rewrite Hinit, event_loop_split, Hpre.
    cbn [event_loop]. now rewrite Hrun. }
  rewrite Hmain. cbn [fst close p_err p_closed p_out].
  rewrite (Herr Hpre), Herr0, Hcl, Hcl0. now repeat split.
Qed.

(** X13: the [close] calls of [main] on the descriptors it gets from
    [open] and [kqueue].  While the run is still waiting [main] has called
    [close] on neither, they stay open for the whole watch; when the run
    has exited it has called [close] on exactly those it had obtained,
    each once, [kq] before [dirfd]: none when the arguments are refused or
    [open] fails, [dirfd] alone when [kqueue] fails, both otherwise.  (The
    directory streams that the scans get from [opendir] are closed with
    [closedir] inside each scan and are not counted here.) *)
Theorem run_closes_what_it_opened progname args su its :
  p_closed (fst (main PATH_MAX strerror progname args su its))
  = match snd (main PATH_MAX strerror progname args su its) with
    | Waiting => []
    | Exited _ => opened args su
    end.
Proof.
  unfold main, initializing, opened.
  destruct (parse_args args false None) as [[nt [d|]]|]; try reflexivity.
  destruct (open_ret su <? 0); [reflexivity|].
  destruct (kqueue_ret su <? 0); [reflexivity|].
  destruct (register_ret su <? 0); [reflexivity|].
  pose proof (event_loop_quiet d nt its
                (initial_scan PATH_MAX (seed_listing su) d proc_init)) as (Hcl & _).
  destruct (initial_scan_seen PATH_MAX (seed_listing su) d proc_init seen_init_wf)
    as (_ & _ & _ & Hcl0).
  destruct (event_loop PATH_MAX strerror d nt _ its) as [p' []];
    cbn [fst snd close p_closed] in *; rewrite Hcl, Hcl0; reflexivity.
Qed.

(** X14: exit status and diagnostics.  A run that is still waiting has
    written nothing to standard error.  A run that has exited returned 0 or
    1.  Status 1 means the event loop was never reached: a diagnostic is on
    standard error, nothing is on standard output, the seen-set is empty,
    and the turns offered make no difference.  Status 0 means the loop was
    reached and left, with at most one line on standard error. *)
Theorem exit_status_and_diagnostics progname args su its :
  match snd (main PATH_MAX strerror progname args su its) with
  | Waiting => p_err (fst (main PATH_MAX strerror progname args su its)) = []
  | Exited status =>
      (status = 1
       /\ p_err (fst (main PATH_MAX strerror progname args su its)) <> []
       /\ p_out (fst (main PATH_MAX strerror progname args su its)) = []
       /\ p_seen (fst (main PATH_MAX strerror progname args su its)) = seen_init
       /\ forall its', main PATH_MAX strerror progname args su its'
                       = main PATH_MAX strerror progname args su its)
      \/ (status = 0
          /\ (exists p0 nt d kq dirfd,
                initializing PATH_MAX strerror progname args su
                = InitOk p0 nt d kq dirfd)
          /\ (length (p_err (fst (main PATH_MAX strerror progname args su its)))
              <= 1)%nat)
  end.
Proof.
  unfold main.
  destruct (initializing PATH_MAX strerror progname args su)
    as [p status|p0 nt d kq dirfd] eqn:Hinit.
  - cbn [fst snd]. left.
    destruct (initializing_exit_silent _ _ _ _ _ _ _ Hinit) as (-> & Hout & Hseen).
    split; [reflexivity|]. split; [|now repeat split].
    revert Hinit. unfold initializing.
    destruct (parse_args args false None) as [[nt [d|]]|];
      [|intros [= <-]; discriminate..].
    destruct (open_ret su <? 0); [intros [= <-]; discriminate|].
    destruct (kqueue_ret su <? 0); [intros [= <-]; discriminate|].
    destruct (register_ret su <? 0); [intros [= <-]; discriminate|].
    discriminate.
  - destruct (initializing_ok_state _ _ _ _ _ _ _ _ _ _ Hinit)
      as (_ & _ & Herr0 & _).
    destruct (event_loop_quiet d nt its p0) as (_ & Hwait & Hmost).
    destruct (event_loop PATH_MAX strerror d nt p0 its) as [p' []];
      cbn [fst snd close p_err] in *.
    + right. split; [reflexivity|]. split; [now exists p0, nt, d, kq, dirfd|].
      rewrite Herr0 in Hmost. exact Hmost.
    + rewrite Hwait by reflexivity. exact Herr0.
Qed.

(** X17: at every point of every run the seen-set of the process has its
    count between 0 and [MAX_SEEN], holds that many entries, and keeps its
    array of [MAX_SEEN] cells. *)
Theorem run_seen_set_bounded progname args su its :
  0 <= seen_count (p_seen (fst (main PATH_MAX strerror progname args su its)))
    <= MAX_SEEN
  /\ Z.of_nat (length (tracked
                 (p_seen (fst (main PATH_MAX strerror progname args su its)))))
     = seen_count (p_seen (fst (main PATH_MAX strerror progname args su its)))
  /\ length (seen_inodes
               (p_seen (fst (main PATH_MAX strerror progname args su its))))
     = Z.to_nat MAX_SEEN.
Proof.
  pose proof (main_seen_wf PATH_MAX strerror progname args su its) as Hwf.
  split; [apply Hwf|]. split; [now apply length_tracked | apply Hwf].
Qed.

(** X18: when no file has two visible names in the start-up listing, the
    seen-set never holds an inode number twice, at any point of the run and
    beyond capacity too: the reporting scans insert only what [is_seen]
    does not find. *)
Theorem run_keeps_seen_set_distinct progname args su its :
  NoDup (candidates (default [] (seed_listing su))) ->
  NoDup (tracked (p_seen (fst (main PATH_MAX strerror progname args su its)))).
Proof.
  intros Hnd.
  destruct (initializing PATH_MAX strerror progname args su)
    as [p status|p0 nt d kq dirfd] eqn:Hinit.
  - unfold main. rewrite Hinit. cbn [fst].
    apply initializing_exit_silent in Hinit as (_ & _ & ->). constructor.
  - rewrite (main_seen _ _ _ _ _ _ _ _ _ _ _ Hinit).
    destruct (initializing_ok_state _ _ _ _ _ _ _ _ _ _ Hinit) as (Hwf & _).
    apply event_loop_distinct; [exact Hwf|].
    apply initializing_ok in Hinit as (-> & _).
    destruct (seed_listing su) as [es|];
      [change (default [] (Some es)) with es in Hnd|constructor].
    cbn [initial_scan p_seen set_seen proc_init].
    rewrite initial_scan_entries_mark.
    rewrite window_fold_mark_seen by exact seen_init_wf.
    rewrite tracked_init, app_nil_l.
    exact (sublist_NoDup _ _ Hnd (sublist_drop _ _)).
Qed.

End RunProperties.

(** ** The path of a record *)

Section PathProperties.

Lemma length_bytes (s : string) : length (bytes s) = String.length s.
Proof. induction s as [|c s IH]; simpl; [reflexivity | now rewrite IH]. Qed.

Lemma length_string_take (n : nat) (s : string) :
  (String.length (string_take n s) <= n)%nat.
Proof.
  revert s; induction n as [|n IH]; intros [|c s]; simpl; try lia.
  specialize (IH s). lia.
Qed.

Lemma string_app_assoc (a b c : string) :
  ((a ++ b) ++ c = a ++ (b ++ c))%string.
Proof. induction a as [|x a IH]; simpl; [reflexivity | now rewrite IH]. Qed.

(** X15: a record never exceeds the path buffer: its path has at most
    [PATH_MAX - 1] bytes, one separator byte follows.  When the directory
    argument, a slash and the entry's name fit in the buffer, the record is
    exactly these followed by the separator; longer paths are cut, not
    overrun. *)
Theorem record_fits_path_buffer (PATH_MAX : nat) (d : string) (nt : bool)
    (r : report) (e : entry) :
  written_for PATH_MAX d nt r e ->
  (length (bytes (r_bytes r)) <= S (PATH_MAX - 1))%nat
  /\ ((String.length (c_str d) + 1 + String.length (c_str (d_name e)) < PATH_MAX)%nat ->
        r_bytes r
        = (c_str d ++ String "/" (c_str (d_name e))
           ++ String (separator nt) EmptyString)%string).
Proof.
  intros [_ Hbytes]. rewrite Hbytes. split.
  - rewrite emit_bytes, length_app, length_bytes. cbn [length].
    pose proof (length_string_take (PATH_MAX - 1)
                  (c_str d ++ String "/" (c_str (d_name e)))) as Hlen.
    unfold snprintf_path. lia.
  - intros Hfit. unfold emit. rewrite snprintf_path_fits.
    + apply string_app_assoc.
    + rewrite string_length_app. simpl. lia.
Qed.

End PathProperties.

(** * The claims on concrete runs *)

Local Open Scope string_scope.



(** C2: the code at a failing wait.  With [kevent] failing with [EBADF]
    (9, not [EINTR]) in the loop, the run writes the [perror] line, closes
    [kq] and [dirfd] and returns 0, whatever turns would follow; the same
    kind of failure at start-up ([kqueue] returning -1) returns 1. *)
Theorem wait_failure_exits_zero (PATH_MAX : nat) (strerror : Z -> string)
    (rest : list iteration) :
  main PATH_MAX strerror "sic-watcher" ["/w"] (startup_ok (Some []))
    (wait_fails 9 :: rest)
  = (close (close (perror strerror "sic-watcher: kevent wait" 9 proc_init) 4) 3,
     Exited 0)
  /\ snd (main PATH_MAX strerror "sic-watcher" ["/w"]
            {| open_ret := 3; open_errno := 0; kqueue_ret := -1;
               kqueue_errno := 24; register_ret := 0; register_errno := 0;
               seed_listing := Some [] |} rest)
     = Exited 1.
Proof. split; reflexivity. Qed.

(** C3: the code on a directory that holds two names of one file when the
    watch starts.  The initial scan calls [mark_seen] for the second name
    although [is_seen] is true for its inode number by then, and the
    seen-set ends up holding the number twice; the reporting scan, which
    tests [is_seen] first, holds it once on the same listing. *)
Theorem initial_scan_inserts_seen_inode (PATH_MAX : nat) (d : string) :
  let s1 := p_seen (initial_scan PATH_MAX (Some (take 1 hard_links)) d proc_init) in
  let s2 := p_seen (initial_scan PATH_MAX (Some hard_links) d proc_init) in
  is_seen s1 5%N = true
  /\ tracked s2 = [5%N; 5%N]
  /\ seen_count s2 = 2
  /\ ~ NoDup (tracked s2)
  /\ tracked (p_seen (fst (scan_and_report PATH_MAX (Some hard_links) d false
                             proc_init))) = [5%N].
Proof.
  intros s1 s2.
  assert (H2 : tracked s2 = [5%N; 5%N]) by (vm_compute; reflexivity).
  split; [vm_compute; reflexivity|]. split; [exact H2|].
  split; [vm_compute; reflexivity|]. split; [|vm_compute; reflexivity].
  rewrite H2. intros Hnd. apply NoDup_cons in Hnd as [Hnotin _].
  apply Hnotin. now left.
Qed.

Lemma usage_on_bad_arguments_witness :
  (initializing 1024 strerror_text "sic-watcher" ["-v"; "/w"] (startup_ok (Some []))
   = InitExit (usage "sic-watcher" proc_init) 1)
  /\ (existsb unknown_flag ["/old"; "-0"; "/w"] = false
      /\ last (List.filter positional ["/old"; "-0"; "/w"]) = Some "/w"
      /\ true = existsb is_null_flag ["/old"; "-0"; "/w"]).
Proof.
  split.
  - apply (proj1 (usage_on_bad_arguments 1024 strerror_text "sic-watcher"
                    ["-v"; "/w"] (startup_ok (Some [])))).
    left. reflexivity.
  - apply (proj2 (usage_on_bad_arguments 1024 strerror_text "sic-watcher"
                    ["/old"; "-0"; "/w"] (startup_ok (Some [])))
             proc_init true "/w" 4 3).
    vm_compute. reflexivity.
Defined.

(** C4, as stated, fails for more than one positional argument: with two
    directories on the command line the run reaches the event loop,
    watching the second. *)
Lemma two_directories_accepted :
  List.filter positional ["/a"; "/b"] = ["/a"; "/b"]
  /\ initializing 1024 strerror_text "sic-watcher" ["/a"; "/b"]
       (startup_ok (Some []))
     = InitOk proc_init false "/b" 4 3
  /\ ~ (forall args, length (List.filter positional args) <> 1%nat ->
          exists p, initializing 1024 strerror_text "sic-watcher" args
                      (startup_ok (Some [])) = InitExit p 1).
Proof.
  assert (H : initializing 1024 strerror_text "sic-watcher" ["/a"; "/b"]
                (startup_ok (Some [])) = InitOk proc_init false "/b" 4 3)
    by (vm_compute; reflexivity).
  split; [reflexivity|]. split; [exact H|].
  intros Hall. destruct (Hall ["/a"; "/b"]) as [p Hp]; [discriminate|].
  rewrite H in Hp. discriminate.
Qed.

Lemma record_separator_witness :
  exists d it es e,
    d ∈ ["-0"; "/w"]
    /\ last (List.filter positional ["-0"; "/w"]) = Some d
    /\ it ∈ [changed (Some [regular_file "a.png" 7%N])]
    /\ it_listing it = Some es /\ e ∈ es
    /\ candidate e
       = Some (r_ino {| r_ino := 7%N; r_bytes := emit "/w/a.png" true |})
    /\ bytes (r_bytes {| r_ino := 7%N; r_bytes := emit "/w/a.png" true |})
       = (bytes (snprintf_path 1024 d (d_name e))
          ++ [(if existsb is_null_flag ["-0"; "/w"] then NUL else LF)])%list
    /\ bytes (snprintf_path 1024 d (d_name e))
       = take (1024 - 1)
           (bytes (c_str d) ++ "/"%char :: bytes (c_str (d_name e)))%list
    /\ (NUL ∉ bytes d -> NUL ∉ bytes (d_name e) ->
        (String.length d + 1 + String.length (d_name e) < 1024)%nat ->
        bytes (r_bytes {| r_ino := 7%N; r_bytes := emit "/w/a.png" true |})
        = (bytes d ++ "/"%char :: bytes (d_name e)
           ++ [(if existsb is_null_flag ["-0"; "/w"] then NUL else LF)])%list)
    /\ (NUL ∉ bytes (snprintf_path 1024 d (d_name e)))
    /\ last (bytes (r_bytes {| r_ino := 7%N; r_bytes := emit "/w/a.png" true |}))
       = Some (if existsb is_null_flag ["-0"; "/w"] then NUL else LF).
Proof.
  apply (record_separator 1024 strerror_text "sic-watcher" ["-0"; "/w"]
           (startup_ok (Some []))
           [changed (Some [regular_file "a.png" 7%N])]
           {| r_ino := 7%N; r_bytes := emit "/w/a.png" true |}).
  vm_compute. left.
Defined.

Lemma hidden_entries_skipped_witness :
  scan_entry 1024 "/w" false (proc_init, 0) (regular_file ".DS_Store" 9%N)
  = (proc_init, 0)
  /\ initial_scan_entry 1024 "/w" seen_init (regular_file ".DS_Store" 9%N) = seen_init
  /\ forall before after,
       scan_and_report 1024
         (Some (before ++ regular_file ".DS_Store" 9%N :: after)%list)
         "/w" false proc_init
       = scan_and_report 1024 (Some (before ++ after)%list) "/w" false proc_init
       /\ initial_scan 1024
            (Some (before ++ regular_file ".DS_Store" 9%N :: after)%list)
            "/w" proc_init
          = initial_scan 1024 (Some (before ++ after)%list) "/w" proc_init.
Proof.
  apply (hidden_entries_skipped 1024 "/w" false proc_init 0 seen_init
           (regular_file ".DS_Store" 9%N)).
  reflexivity.
Defined.

Lemma scan_judges_by_stat_witness :
  scan_entry 1024 "/w" false (proc_init, 0) vanished = (proc_init, 0)
  /\ scan_entry 1024 "/w" false (proc_init, 0) subdirectory = (proc_init, 0)
  /\ scan_entry 1024 "/w" false (proc_init, 0) link_to_file
     = (write_out (set_seen proc_init (mark_seen (p_seen proc_init) 12%N))
          {| r_ino := 12%N;
             r_bytes := emit (snprintf_path 1024 "/w" (d_name link_to_file))
                          false |},
        0 + 1).
Proof.
  split; [|split].
  - apply (proj1 (scan_judges_by_stat 1024 "/w" false proc_init 0 vanished)).
    reflexivity.
  - apply (proj1 (proj2 (scan_judges_by_stat 1024 "/w" false proc_init 0
                           subdirectory))
             (Object Directory 493%N 20%N) Directory 493%N 20%N);
      [reflexivity | reflexivity | discriminate].
  - apply (proj2 (proj2 (proj2 (scan_judges_by_stat 1024 "/w" false proc_init 0
                                  link_to_file)))
             (Symlink 11%N (Object Regular 420%N 12%N)) 420%N 12%N);
      reflexivity.
Defined.

(** C9, as stated, fails for symbolic links: a link that leads to a
    regular file is reported, under the link's name and with the file's
    inode number. *)
Lemma symlink_to_file_reported :
  is_symlink (Symlink 11%N (Object Regular 420%N 12%N)) = true
  /\ p_out (fst (scan_and_report 1024 (Some [link_to_file]) "/w" false proc_init))
     = [{| r_ino := 12%N; r_bytes := emit "/w/shot.png" false |}]
  /\ ~ (forall e n p found,
          e_node e = Some n -> is_symlink n = true ->
          scan_entry 1024 "/w" false (p, found) e = (p, found)).
Proof.
  split; [reflexivity|]. split; [vm_compute; reflexivity|].
  intros Hall.
  specialize (Hall link_to_file _ proc_init 0 eq_refl eq_refl).
  apply (f_equal snd) in Hall. vm_compute in Hall. discriminate.
Qed.

Lemma scan_open_failure_not_fatal_witness :
  scan_and_report 1024 (it_listing (changed None)) "/w" false proc_init
  = (proc_init, 0)
  /\ event_loop 1024 strerror_text "/w" false proc_init [changed None; stopped]
     = event_loop 1024 strerror_text "/w" false proc_init [stopped]
  /\ forall progname args su its nt' dirpath,
       parse_args args false None = Some (nt', Some dirpath) ->
       open_ret su < 0 ->
       main 1024 strerror_text progname args su its
       = (write_err proc_init
            ("sic-watcher: cannot open '" ++ c_str dirpath ++ "': "
             ++ c_str (strerror_text (open_errno su)) ++ nl),
          Exited 1).
Proof.
  apply (scan_open_failure_not_fatal 1024 strerror_text "/w" false proc_init
           (changed None) [stopped]).
  - discriminate.
  - reflexivity.
  - reflexivity.
Defined.

(** * Further properties on concrete runs *)

Lemma seen_set_holds_last_insertions_witness :
  tracked (fold_left mark_seen [5000%N; 5001%N] full_set)
  = window (tracked full_set ++ [5000%N; 5001%N])%list
  /\ seen_count (fold_left mark_seen [5000%N; 5001%N] full_set)
     = Z.min (seen_count full_set + Z.of_nat (length [5000%N; 5001%N])) MAX_SEEN.
Proof.
  apply (seen_set_holds_last_insertions full_set [5000%N; 5001%N]).
  split; [vm_compute; reflexivity | split; vm_compute; discriminate].
Defined.

Lemma is_seen_after_mark_seen_witness :
  (is_seen (mark_seen full_set 5000%N) 1%N = true ->
   1%N = 5000%N \/ is_seen full_set 1%N = true)
  /\ (seen_count full_set < MAX_SEEN ->
        is_seen (mark_seen full_set 5000%N) 1%N
        = (1 =? 5000)%N || is_seen full_set 1%N)
  /\ (is_seen full_set 1%N = true ->
      is_seen (mark_seen full_set 5000%N) 1%N = false ->
      seen_count full_set = MAX_SEEN /\ head (tracked full_set) = Some 1%N).
Proof.
  apply (is_seen_after_mark_seen full_set 5000%N 1%N).
  split; [vm_compute; reflexivity | split; vm_compute; discriminate].
Defined.

Lemma scan_reports_every_new_file_witness :
  exists new r,
    p_out (fst (scan_and_report 1024 (Some two_files) "/w" false proc_init))
    = (p_out proc_init ++ new)%list
    /\ r ∈ new /\ r_ino r = 2%N.
Proof.
  apply (scan_reports_every_new_file 1024 "/w" false two_files proc_init
           (regular_file "b.png" 2%N) 2%N).
  - split; [vm_compute; reflexivity | split; vm_compute; discriminate].
  - apply list_elem_of_further, list_elem_of_further, list_elem_of_here.
  - reflexivity.
  - reflexivity.
Defined.

Lemma rescan_reports_nothing_witness :
  scan_and_report 1024 (Some two_files) "/w" false
    (fst (scan_and_report 1024 (Some two_files) "/w" false proc_init))
  = (fst (scan_and_report 1024 (Some two_files) "/w" false proc_init), 0).
Proof.
  apply (rescan_reports_nothing 1024 "/w" false two_files proc_init).
  - split; [vm_compute; reflexivity | split; vm_compute; discriminate].
  - vm_compute. discriminate.
Defined.

Lemma files_present_at_startup_not_reported_witness :
  r_ino {| r_ino := 10%N; r_bytes := emit "/w/f10" false |}
  ∉ candidates two_files.
Proof.
  apply (files_present_at_startup_not_reported 1024 strerror_text "sic-watcher"
           ["/w"] (startup_ok (Some two_files))
           [changed (Some (regular_file "renamed.png" 1%N
                           :: numbered_files 10 2));
            changed (Some two_files)]
           two_files eq_refl).
  - vm_compute. discriminate.
  - vm_compute. left.
Defined.

Lemma shutdown_exits_zero_witness :
  main 1024 strerror_text "sic-watcher" ["/w"] (startup_ok (Some []))
    ([changed (Some two_files)] ++ stopped :: [changed None])%list
  = (close (close (fst (event_loop 1024 strerror_text "/w" false proc_init
                          [changed (Some two_files)])) 4) 3,
     Exited 0)
  /\ p_err (fst (main 1024 strerror_text "sic-watcher" ["/w"]
                   (startup_ok (Some []))
                   ([changed (Some two_files)] ++ stopped :: [changed None])%list))
     = []
  /\ p_closed (fst (main 1024 strerror_text "sic-watcher" ["/w"]
                      (startup_ok (Some []))
                      ([changed (Some two_files)] ++ stopped :: [changed None])%list))
     = [4; 3]
  /\ p_out (fst (main 1024 strerror_text "sic-watcher" ["/w"]
                   (startup_ok (Some []))
                   ([changed (Some two_files)] ++ stopped :: [changed None])%list))
     = p_out (fst (event_loop 1024 strerror_text "/w" false proc_init
                     [changed (Some two_files)])).
Proof.
  apply (shutdown_exits_zero 1024 strerror_text "sic-watcher" ["/w"]
           (startup_ok (Some [])) proc_init false "/w" 4 3
           [changed (Some two_files)] stopped [changed None]).
  - vm_compute. reflexivity.
  - vm_compute. reflexivity.
  - reflexivity.
Defined.

Lemma run_keeps_seen_set_distinct_witness :
  NoDup (tracked (p_seen (fst (main 1024 strerror_text "sic-watcher" ["/w"]
                                 (startup_ok (Some two_files))
                                 [changed (Some (numbered_files 1 5))])))).
Proof.
  apply (run_keeps_seen_set_distinct 1024 strerror_text "sic-watcher" ["/w"]
           (startup_ok (Some two_files)) [changed (Some (numbered_files 1 5))]).
  change (NoDup [1%N; 2%N]).
  apply NoDup_cons. split; [|apply NoDup_singleton].
  intros H. apply list_elem_of_singleton in H. discriminate H.
Defined.

Lemma record_fits_path_buffer_witness :
  (length (bytes (r_bytes {| r_ino := 1%N; r_bytes := emit "/w/a.png" true |}))
   <= S (1024 - 1))%nat
  /\ ((String.length (c_str "/w") + 1
       + String.length (c_str (d_name (regular_file "a.png" 1%N))) < 1024)%nat ->
        r_bytes {| r_ino := 1%N; r_bytes := emit "/w/a.png" true |}
        = c_str "/w" ++ String "/" (c_str (d_name (regular_file "a.png" 1%N)))
          ++ String (separator true) EmptyString).
Proof.
  apply (record_fits_path_buffer 1024 "/w" true
           {| r_ino := 1%N; r_bytes := emit "/w/a.png" true |}
           (regular_file "a.png" 1%N)).
  split; reflexivity.
Defined.
